(** * Feedback arc set: generator / supervisor

    A shallow embedding of [structs.h], [fb_arc_set.c], [generator.c] and
    [supervisor.c], and the properties of the design document checked
    against it.

    Conventions.
    - C [int] values are [Z]; [wrap_int] is written where the code computes
      a value that can leave the [int] range (the comparator [cmpfunc]).
      The counters [d], [len], [E] and the back-edge count are bounded by
      [argc] and are kept unwrapped.
    - Loop indices that only walk an array are [nat].
    - An array is a [list]; [l !! i] reads it and [<[i:=x]> l] writes it.
    - [malloc]/[realloc] are assumed to succeed.
    - A call that can stop the process returns a [res]. *)

From stdpp Require Import base tactics option list numbers sorting sets relations.

#[local] Set Warnings "-clear-no-such-hyp".

Local Open Scope Z_scope.

(** ** Constants of [structs.h] and of the C library *)

Definition BSEARCH_PROMPT_SIZE : Z := 15.
Definition MAX_VIABLE_COUNT : Z := 8.
Definition BUF_SIZE : Z := 8.

Definition INT_MAX : Z := 2147483647.
Definition INT16_MAX : Z := 32767.
(** [errno] value of an interrupted call (Linux, [errno.h]). *)
Definition EINTR : Z := 4.

(** Two's complement reduction of a mathematical integer to [int]. *)
Definition wrap_int (z : Z) : Z := (z + 2147483648) `mod` 4294967296 - 2147483648.

(** ** Outcomes of a call *)

(** [Ok a]: the call returns [a]. [AssertFail]: an [assert] failed
    ([abort]). [ExitFailure]: [exit(EXIT_FAILURE)]. [Blocked]: the call
    sleeps in [sem_wait] until another process posts. [Spins]: a loop whose
    exit condition cannot become true without another process writing the
    memory it polls. [Undef]: an access outside an array. *)
Inductive res (A : Type) : Type :=
  | Ok (a : A)
  | AssertFail
  | ExitFailure
  | Blocked
  | Spins
  | Undef.
Arguments Ok {A} a.
Arguments AssertFail {A}.
Arguments ExitFailure {A}.
Arguments Blocked {A}.
Arguments Spins {A}.
Arguments Undef {A}.

Definition res_bind {A B : Type} (f : A → res B) (m : res A) : res B :=
  match m with
  | Ok a => f a
  | AssertFail => AssertFail
  | ExitFailure => ExitFailure
  | Blocked => Blocked
  | Spins => Spins
  | Undef => Undef
  end.

#[global] Instance res_mret : MRet res := @Ok.
#[global] Instance res_mbind : MBind res := @res_bind.

(** [assert(b)] *)
Definition assert (b : bool) : res unit := if b then Ok () else AssertFail.

(** ** Data model ([structs.h]) *)

(** [struct successors]: [succ] holds the cells of [list]; the first [d]
    of them are the successors. *)
Record successors : Type := mk_successors {
  d : Z;
  len : Z;
  is_sorted : bool;
  succ : list Z
}.

Record Graph_s : Type := mk_Graph {
  V : Z;
  E : Z;
  alist : list successors
}.

Record Edge : Type := mk_Edge { src : Z; trgt : Z }.

Record Fb_arc_set : Type := mk_Fb_arc_set {
  written : bool;
  num_e : Z;
  edges : list Edge
}.

Record Buffer : Type := mk_Buffer {
  acyclic : bool;
  quit : Z;
  best_fb_size : Z;
  sets : list Fb_arc_set
}.

#[global] Instance Edge_eq_dec : EqDecision Edge.
Proof. solve_decision. Defined.

(** ** Helper functions ([fb_arc_set.c]) *)

(** [cmpfunc]: the difference of the two [int]s, computed in [int]. *)
Definition cmpfunc (a b : Z) : Z := wrap_int (a - b).

(** [val_in_arr val arr size]: linear search in the first [size] cells. *)
Definition val_in_arr (val : Z) (arr : list Z) (size : nat) : bool :=
  existsb (λ x, x =? val) (take size arr).

(** ** C library: [qsort] and [bsearch] *)

(** [qsort] is specified by the C standard only as sorting with respect to
    the comparator. It is modelled by insertion sort; on [int]s ordered by
    a comparator that is a total order every sorting algorithm yields the
    same array. *)
Fixpoint qsort_insert (cmp : Z → Z → Z) (x : Z) (l : list Z) : list Z :=
  match l with
  | [] => [x]
  | y :: l' => if cmp x y <=? 0 then x :: y :: l' else y :: qsort_insert cmp x l'
  end.

Definition qsort_cells (cmp : Z → Z → Z) (l : list Z) : list Z :=
  foldr (qsort_insert cmp) [] l.

(** [qsort(base, nmemb, sizeof(int), cmp)]: sorts the first [nmemb] cells. *)
Definition qsort (base : list Z) (nmemb : Z) (cmp : Z → Z → Z) : list Z :=
  qsort_cells cmp (take (Z.to_nat nmemb) base) ++ drop (Z.to_nat nmemb) base.

(** [bsearch]: the loop of the C library, on the half-open range [l, u). *)
Fixpoint bsearch_loop (fuel : nat) (cmp : Z → Z → Z) (key : Z) (base : list Z)
    (l u : Z) : res bool :=
  if l <? u then
    match fuel with
    | O => Spins
    | S fuel' =>
        let idx := (l + u) `div` 2 in
        match base !! Z.to_nat idx with
        | None => Undef
        | Some p =>
            let c := cmp key p in
            if c <? 0 then bsearch_loop fuel' cmp key base l idx
            else if 0 <? c then bsearch_loop fuel' cmp key base (idx + 1) u
            else Ok true
        end
    end
  else Ok false.

(** [bsearch(&key, base, nmemb, sizeof(int), cmp) != 0] *)
Definition bsearch (key : Z) (base : list Z) (nmemb : Z) (cmp : Z → Z → Z) : res bool :=
  bsearch_loop (Z.to_nat nmemb) cmp key base 0 nmemb.

(** ** Graph functions ([fb_arc_set.c]) *)

Definition graph_create (n : Z) : Graph_s :=
  {| V := n; E := 0;
     alist := replicate (Z.to_nat n)
                {| d := 0; len := 1; is_sorted := true; succ := [] |} |}.

Definition graph_vertex_count (g : Graph_s) : Z := V g.
Definition graph_edge_count (g : Graph_s) : Z := E g.

(** [while (d >= len) { len *= 2; realloc }] *)
Fixpoint grow_len (fuel : nat) (dd ll : Z) : res Z :=
  if ll <=? dd then
    match fuel with
    | O => Spins
    | S fuel' => grow_len fuel' dd (ll * 2)
    end
  else Ok ll.

Definition graph_add_edge (g : Graph_s) (u v : Z) : res Graph_s :=
  _ ← assert (0 <=? u);
  _ ← assert (u <? V g);
  _ ← assert (0 <=? v);
  _ ← assert (v <? V g);
  match alist g !! Z.to_nat u with
  | None => Undef
  | Some s =>
      len' ← grow_len (S (Z.to_nat (d s))) (d s) (len s);
      let s' := {| d := d s + 1; len := len'; is_sorted := false;
                   succ := take (Z.to_nat (d s)) (succ s) ++ [v] |} in
      Ok {| V := V g; E := E g + 1; alist := <[Z.to_nat u := s']> (alist g) |}
  end.

Definition graph_out_degree (g : Graph_s) (source : Z) : res Z :=
  _ ← assert (0 <=? source);
  _ ← assert (source <? V g);
  match alist g !! Z.to_nat source with
  | None => Undef
  | Some s => Ok (d s)
  end.

(** The result of [graph_has_edge]: the returned truth value, whether this
    call ran [qsort], and the graph afterwards ([qsort] reorders the
    successor array in place). *)
Record has_edge_ret : Type := mk_has_edge_ret {
  he_found : bool;
  he_qsort : bool;
  he_graph : Graph_s
}.

(** The two branches of [graph_has_edge], on the successor record. *)
Definition has_edge_bsearch (s : successors) (target : Z) : res (bool * bool * successors) :=
  let l' := if is_sorted s then succ s else qsort (succ s) (d s) cmpfunc in
  found ← bsearch target l' (d s) cmpfunc;
  Ok (found, negb (is_sorted s),
      {| d := d s; len := len s; is_sorted := is_sorted s; succ := l' |}).

Definition has_edge_linear (s : successors) (target : Z) : bool :=
  existsb (λ x, x =? target) (take (Z.to_nat (d s)) (succ s)).

Definition graph_has_edge (g : Graph_s) (source target : Z) : res has_edge_ret :=
  deg ← graph_out_degree g source;
  match alist g !! Z.to_nat source with
  | None => Undef
  | Some s =>
      if BSEARCH_PROMPT_SIZE <=? deg then
        '(found, sorted_now, s') ← has_edge_bsearch s target;
        Ok {| he_found := found; he_qsort := sorted_now;
              he_graph := {| V := V g; E := E g;
                             alist := <[Z.to_nat source := s']> (alist g) |} |}
      else
        Ok {| he_found := has_edge_linear s target; he_qsort := false; he_graph := g |}
  end.

(** ** Semaphore functions ([fb_arc_set.c]) *)

(** What the kernel answers to [sem_wait] / [sem_post] / [sem_getvalue]:
    success, or [-1] with [errno]. On failure the semaphore is unchanged. *)
Inductive sem_ret : Type :=
  | SemOk
  | SemErr (errno : Z).

(** [wait_sem]: the value of the semaphore after the call returns. *)
Definition wait_sem (r : sem_ret) (sem : Z) : res Z :=
  match r with
  | SemOk => if 0 <? sem then Ok (sem - 1) else Blocked
  | SemErr errno => if errno =? EINTR then Ok sem else ExitFailure
  end.

Definition post_sem (r : sem_ret) (sem : Z) : res Z :=
  match r with
  | SemOk => Ok (sem + 1)
  | SemErr _ => ExitFailure
  end.

Definition getval_sem (r : sem_ret) (sem : Z) : res Z :=
  match r with
  | SemOk => Ok sem
  | SemErr _ => ExitFailure
  end.

(** ** Shared objects *)

(** The shared memory block and the three named semaphores. *)
Record shared : Type := mk_shared {
  ring_buf : Buffer;
  excl_sem : Z;
  used_sem : Z;
  free_sem : Z
}.

Definition set_sets (rb : Buffer) (s : list Fb_arc_set) : Buffer :=
  {| acyclic := acyclic rb; quit := quit rb; best_fb_size := best_fb_size rb; sets := s |}.

(** The slot search of both programs:
    [while (ring_buf->sets[pos].written == busy) pos = (pos + 1) % BUF_SIZE;]
    After [BUF_SIZE] advances every slot has been polled. *)
Fixpoint find_slot (fuel : nat) (busy : bool) (slots : list Fb_arc_set) (pos : Z) : res Z :=
  match slots !! Z.to_nat pos with
  | None => Undef
  | Some s =>
      if bool_decide (written s = busy) then
        match fuel with
        | O => Spins
        | S fuel' => find_slot fuel' busy slots ((pos + 1) `rem` BUF_SIZE)
        end
      else Ok pos
  end.

(** ** The generator ([generator.c]) *)

Module Generator.

(** The locals of [main] that live across loop iterations, and the
    process-local [quit]. *)
Record locals : Type := mk_locals {
  g : Graph_s;
  vertex_set : list Z;
  best_fb_size_l : Z;
  write_at : Z;
  quit_l : Z
}.

Definition signal_handler (st : locals) : locals :=
  {| g := g st; vertex_set := vertex_set st; best_fb_size_l := best_fb_size_l st;
     write_at := write_at st; quit_l := 1 |}.

(** Graph construction of [main]. An argument is given by the pair
    [(src_from_arg arg, trgt_from_arg arg)]. *)
Definition collect (max_set : list Z) (a : Z * Z) : list Z :=
  let m1 := if val_in_arr a.1 max_set (length max_set) then max_set else max_set ++ [a.1] in
  if val_in_arr a.2 m1 (length m1) then m1 else m1 ++ [a.2].

Fixpoint add_edges (gr : Graph_s) (args : list (Z * Z)) : res Graph_s :=
  match args with
  | [] => Ok gr
  | a :: args' => gr' ← graph_add_edge gr a.1 a.2; add_edges gr' args'
  end.

Definition setup (args : list (Z * Z)) : res locals :=
  if bool_decide (args = []) then ExitFailure
  else
    let max_set := foldl collect [] args in
    let num_v := Z.of_nat (length max_set) in
    let num_e := Z.of_nat (length args) in
    let gr := graph_create num_v in
    _ ← assert (graph_vertex_count gr =? num_v);
    _ ← assert (graph_edge_count gr =? 0);
    gr' ← add_edges gr args;
    _ ← assert (graph_edge_count gr' =? num_e);
    Ok {| g := gr'; vertex_set := max_set; best_fb_size_l := num_e - 1;
          write_at := 0; quit_l := 0 |}.

(** The pair scan. [ScanAborted]: left by [break] with [better_sol_ex]
    set. [ScanDone edge_set calc_fb_size]: the loops ran to their end. *)
Inductive scan_ret : Type :=
  | ScanAborted
  | ScanDone (edge_set : list Edge) (calc_fb_size : Z).

(** Inner loop, [for (j = 0; j < i; ++j)]; [edge_set] is the written
    prefix of the array, of [edge_set_i] cells. *)
Fixpoint scan_row (gr : Graph_s) (vs : list Z) (i : nat) (js : list nat)
    (edge_set : list Edge) (calc : Z) : res (Graph_s * list Edge * Z) :=
  match js with
  | [] => Ok (gr, edge_set, calc)
  | j :: js' =>
      match vs !! i, vs !! j with
      | Some vi, Some vj =>
          r ← graph_has_edge gr vi vj;
          if he_found r
          then scan_row (he_graph r) vs i js' (edge_set ++ [mk_Edge vi vj]) (calc + 1)
          else scan_row (he_graph r) vs i js' edge_set calc
      | _, _ => Undef
      end
  end.

(** Outer loop, [for (i = 1; i < num_v; ++i)], with the early exit. *)
Fixpoint scan_from (rows : list nat) (gr : Graph_s) (vs : list Z) (best : Z)
    (edge_set : list Edge) (calc : Z) : res (Graph_s * scan_ret) :=
  match rows with
  | [] => Ok (gr, ScanDone edge_set calc)
  | i :: rows' =>
      '(gr', edge_set', calc') ← scan_row gr vs i (seq 0 i) edge_set calc;
      if best <=? calc' then Ok (gr', ScanAborted)
      else scan_from rows' gr' vs best edge_set' calc'
  end.

Definition scan (gr : Graph_s) (vs : list Z) (best : Z) : res (Graph_s * scan_ret) :=
  scan_from (seq 1 (length vs - 1)) gr vs best [] 0.

(** The payload: [memset] to zero, the first [best] collected edges
    copied, [written] and [num_e] set. *)
Definition build_fb_arc_set (edge_set : list Edge) (best : Z) : Fb_arc_set :=
  {| written := true;
     num_e := best;
     edges := foldl (λ es i, match edge_set !! i with
                             | Some e => <[i := e]> es
                             | None => es
                             end)
                    (replicate (Z.to_nat MAX_VIABLE_COUNT) (mk_Edge 0 0))
                    (seq 0 (Z.to_nat best)) |}.

(** Answers of the kernel to the four semaphore calls of a publication. *)
Record sem_rets : Type := mk_sem_rets {
  wait_excl : sem_ret;
  wait_free : sem_ret;
  post_used : sem_ret;
  post_excl : sem_ret
}.

(** What one pass through the loop body did with its candidate. *)
Inductive action : Type :=
  | Pruned            (* early abort, [continue] *)
  | Rejected          (* scan finished, not a local improvement or too large *)
  | Adopted           (* shared best is smaller: adopt it, [continue] *)
  | Published (slot : Z) (fb : Fb_arc_set).

(** Lines 252-326: what follows the scan. *)
Definition after_scan (rets : sem_rets) (st : locals) (sh : shared) (sr : scan_ret)
    : res (locals * shared * action) :=
  match sr with
  | ScanAborted => Ok (st, sh, Pruned)
  | ScanDone edge_set calc_fb_size =>
      let fb_size := calc_fb_size in
      if (fb_size <? best_fb_size_l st) && (fb_size <=? MAX_VIABLE_COUNT) then
        if best_fb_size (ring_buf sh) <? fb_size then
          Ok ({| g := g st; vertex_set := vertex_set st;
                 best_fb_size_l := best_fb_size (ring_buf sh);
                 write_at := write_at st; quit_l := quit_l st |}, sh, Adopted)
        else
          let best := fb_size in
          let fb_arc_set := build_fb_arc_set edge_set best in
          excl ← wait_sem (wait_excl rets) (excl_sem sh);
          free ← wait_sem (wait_free rets) (free_sem sh);
          slot ← find_slot (Z.to_nat BUF_SIZE) true (sets (ring_buf sh)) (write_at st);
          let rb := set_sets (ring_buf sh) (<[Z.to_nat slot := fb_arc_set]> (sets (ring_buf sh))) in
          used ← post_sem (post_used rets) (used_sem sh);
          let write_at' := (slot + 1) `rem` BUF_SIZE in
          excl' ← post_sem (post_excl rets) excl;
          let st' := {| g := g st; vertex_set := vertex_set st; best_fb_size_l := best;
                        write_at := write_at'; quit_l := quit_l st |} in
          let st'' := if (fb_size =? 0) && (best_fb_size rb =? 0)
                      then signal_handler st' else st' in
          Ok (st'', {| ring_buf := rb; excl_sem := excl'; used_sem := used; free_sem := free |},
              Published slot fb_arc_set)
      else Ok (st, sh, Rejected)
  end.

(** One pass through the body of the main loop. [vs] is [vertex_set] as
    [shuffle_vertex_set] left it. *)
Definition iteration (rets : sem_rets) (vs : list Z) (st : locals) (sh : shared)
    : res (locals * shared * action) :=
  '(gr', sr) ← scan (g st) vs (best_fb_size_l st);
  after_scan rets {| g := gr'; vertex_set := vs; best_fb_size_l := best_fb_size_l st;
                     write_at := write_at st; quit_l := quit_l st |} sh sr.

(** The loop condition. *)
Definition running (st : locals) (sh : shared) : bool :=
  negb (quit_l st =? 1) && negb (acyclic (ring_buf sh)) && negb (quit (ring_buf sh) =? 1).

End Generator.

(** ** The supervisor ([supervisor.c]) *)

Module Supervisor.

Record locals : Type := mk_locals {
  read_from : Z;
  quit_l : Z
}.

(** [quit = 1; ring_buf->quit = 1;] *)
Definition signal_handler (st : locals) (rb : Buffer) : locals * Buffer :=
  ({| read_from := read_from st; quit_l := 1 |},
   {| acyclic := acyclic rb; quit := 1; best_fb_size := best_fb_size rb; sets := sets rb |}).

(** What an iteration prints. *)
Inductive event : Type :=
  | Silent
  | GraphIsAcyclic
  | Solution (size : Z) (edge_set : list Edge).

Record sem_rets : Type := mk_sem_rets {
  getval_free : sem_ret;
  getval_used : sem_ret;
  wait_used : sem_ret;
  post_free : sem_ret
}.

(** A new shared memory object is zero-filled. *)
Definition zero_buffer : Buffer :=
  {| acyclic := false; quit := 0; best_fb_size := 0;
     sets := replicate (Z.to_nat BUF_SIZE)
               {| written := false; num_e := 0;
                  edges := replicate (Z.to_nat MAX_VIABLE_COUNT) (mk_Edge 0 0) |} |}.

(** State when the main loop is entered: semaphores created with their
    initial values, [best_fb_size] set to [INT16_MAX]. *)
Definition setup : locals * shared :=
  ({| read_from := 0; quit_l := 0 |},
   {| ring_buf := {| acyclic := acyclic zero_buffer; quit := quit zero_buffer;
                     best_fb_size := INT16_MAX; sets := sets zero_buffer |};
      excl_sem := 1; used_sem := 0; free_sem := BUF_SIZE |}).

(** One pass through the body of the main loop. *)
Definition iteration (rets : sem_rets) (st : locals) (sh : shared)
    : res (locals * shared * event) :=
  free_space ← getval_sem (getval_free rets) (free_sem sh);
  used_space ← getval_sem (getval_used rets) (used_sem sh);
  used ← wait_sem (wait_used rets) (used_sem sh);
  slot ← find_slot (Z.to_nat BUF_SIZE) false (sets (ring_buf sh)) (read_from st);
  match sets (ring_buf sh) !! Z.to_nat slot with
  | None => Undef
  | Some fb_arc_set =>
      let freed := {| written := false; num_e := num_e fb_arc_set;
                      edges := edges fb_arc_set |} in
      let rb := set_sets (ring_buf sh) (<[Z.to_nat slot := freed]> (sets (ring_buf sh))) in
      free ← post_sem (post_free rets) (free_sem sh);
      let st' := {| read_from := (slot + 1) `rem` BUF_SIZE; quit_l := quit_l st |} in
      if num_e fb_arc_set =? 0 then
        let rb' := {| acyclic := true; quit := quit rb;
                      best_fb_size := best_fb_size rb; sets := sets rb |} in
        let '(st'', rb'') := signal_handler st' rb' in
        Ok (st'', {| ring_buf := rb''; excl_sem := excl_sem sh; used_sem := used;
                     free_sem := free |}, GraphIsAcyclic)
      else if num_e fb_arc_set <? best_fb_size rb then
        let rb' := {| acyclic := acyclic rb; quit := quit rb;
                      best_fb_size := num_e fb_arc_set; sets := sets rb |} in
        Ok (st', {| ring_buf := rb'; excl_sem := excl_sem sh; used_sem := used;
                    free_sem := free |},
            Solution (num_e fb_arc_set) (take (Z.to_nat (num_e fb_arc_set)) (edges fb_arc_set)))
      else
        Ok (st', {| ring_buf := rb; excl_sem := excl_sem sh; used_sem := used;
                    free_sem := free |}, Silent)
  end.

Definition running (st : locals) : bool := negb (quit_l st =? 1).

End Supervisor.

(** ** Shared memory functions and the layout of [Buffer] *)

(** Sizes and alignments of the scalar types, in bytes. The C sources fix
    none of them; they come with the platform. *)
Record abi : Type := mk_abi {
  size_bool : Z;
  align_bool : Z;
  size_int : Z;
  align_int : Z;
  size_sig_atomic_t : Z;
  align_sig_atomic_t : Z
}.

(** x86-64 and i386 System V: [bool] is one byte, [int] and
    [sig_atomic_t] are four. *)
Definition sysv_abi : abi :=
  {| size_bool := 1; align_bool := 1; size_int := 4; align_int := 4;
     size_sig_atomic_t := 4; align_sig_atomic_t := 4 |}.

(** A C object type, as far as layout goes: size and alignment. *)
Record ctype : Type := mk_ctype { c_size : Z; c_align : Z }.

Definition align_up (off a : Z) : Z := (off + a - 1) `div` a * a.

(** End of the last member when the members are laid out from [off] on,
    each at the next multiple of its alignment. *)
Fixpoint members_end (off : Z) (members : list ctype) : Z :=
  match members with
  | [] => off
  | m :: ms => members_end (align_up off (c_align m) + c_size m) ms
  end.

Definition struct_align (members : list ctype) : Z :=
  foldr (λ m a, Z.max (c_align m) a) 1 members.

Definition struct_type (members : list ctype) : ctype :=
  {| c_size := align_up (members_end 0 members) (struct_align members);
     c_align := struct_align members |}.

Definition array_type (n : Z) (t : ctype) : ctype :=
  {| c_size := n * c_size t; c_align := c_align t |}.

(** [offsetof] of member number [k]. *)
Definition offset_of (k : nat) (members : list ctype) : Z :=
  match members !! k with
  | Some m => align_up (members_end 0 (take k members)) (c_align m)
  | None => members_end 0 members
  end.

Section layout.
Variable a : abi.

Definition bool_t : ctype := {| c_size := size_bool a; c_align := align_bool a |}.
Definition int_t : ctype := {| c_size := size_int a; c_align := align_int a |}.
Definition sig_atomic_t : ctype :=
  {| c_size := size_sig_atomic_t a; c_align := align_sig_atomic_t a |}.

Definition Edge_t : ctype := struct_type [int_t; int_t].
Definition Fb_arc_set_t : ctype :=
  struct_type [bool_t; int_t; array_type MAX_VIABLE_COUNT Edge_t].
Definition Buffer_members : list ctype :=
  [bool_t; sig_atomic_t; int_t; array_type BUF_SIZE Fb_arc_set_t].
Definition Buffer_t : ctype := struct_type Buffer_members.

Definition sizeof_Buffer : Z := c_size Buffer_t.
Definition offsetof_sets : Z := offset_of 3 Buffer_members.
End layout.

(** A POSIX shared memory object, as far as its extent goes, and a mapping
    of it. *)
Record shm_object : Type := mk_shm_object { shm_length : Z }.
Record mapping : Type := mk_mapping { map_object : shm_object; map_length : Z }.

(** [shm_open(name, O_RDWR | O_CREAT, 0600)]: the object of that name, or
    a new one of length zero. [ok = false]: the call fails. *)
Definition create_shm (ok : bool) (named : option shm_object) : res shm_object :=
  if ok then Ok (default {| shm_length := 0 |} named) else ExitFailure.

Definition truncate_shm (ok : bool) (o : shm_object) (shm_size : Z) : res shm_object :=
  if ok then Ok {| shm_length := shm_size |} else ExitFailure.

Definition open_shm (ok : bool) (o : shm_object) (shm_size : Z) : res mapping :=
  if ok then Ok {| map_object := o; map_length := shm_size |} else ExitFailure.

(** Lines 128-130 of [supervisor.c]. *)
Definition supervisor_shm (a : abi) (ok1 ok2 ok3 : bool) (named : option shm_object)
    : res mapping :=
  o ← create_shm ok1 named;
  o' ← truncate_shm ok2 o BUF_SIZE;
  open_shm ok3 o' (sizeof_Buffer a).

(** Lines 205-206 of [generator.c]. *)
Definition generator_shm (a : abi) (ok1 ok3 : bool) (named : option shm_object)
    : res mapping :=
  o ← create_shm ok1 named;
  open_shm ok3 o (sizeof_Buffer a).

(** ** Specification vocabulary *)

(** [v] is among the [d] successors stored for [u]. *)
Definition is_edge (gr : Graph_s) (u v : Z) : bool :=
  (0 <=? u) &&
  match alist gr !! Z.to_nat u with
  | Some s => bool_decide (v ∈ take (Z.to_nat (d s)) (succ s))
  | None => false
  end.

(** Representation invariant of a successor record of a graph on [n]
    vertices, and of a graph. *)
Record wf_succ (n : Z) (s : successors) : Prop := mk_wf_succ {
  wf_d : d s = Z.of_nat (length (succ s));
  wf_len : 1 <= len s;
  wf_range : Forall (λ x, 0 <= x < n) (succ s);
  wf_sorted : is_sorted s = true → StronglySorted Z.le (succ s)
}.

Record wf_graph (gr : Graph_s) : Prop := mk_wf_graph {
  wf_V : 0 <= V gr <= INT_MAX;
  wf_alist : length (alist gr) = Z.to_nat (V gr);
  wf_succs : Forall (wf_succ (V gr)) (alist gr)
}.

(** Same vertices, same edges; the order inside a successor array may
    differ. *)
Definition same_edges (g1 g2 : Graph_s) : Prop :=
  V g2 = V g1 ∧ ∀ u v, is_edge g2 u v = is_edge g1 u v.

Definition vertices_of (gr : Graph_s) (vs : list Z) : Prop :=
  Forall (λ x, 0 <= x < V gr) vs.

(** [u] stands after [v] in the ordering [vs]. *)
Definition appears_after (vs : list Z) (u v : Z) : Prop :=
  ∃ i j : nat, (j < i)%nat ∧ vs !! i = Some u ∧ vs !! j = Some v.

(** The edges left when the edges of [es] are removed from the graph. *)
Definition residual_edge (gr : Graph_s) (es : list Edge) (u v : Z) : Prop :=
  is_edge gr u v = true ∧ mk_Edge u v ∉ es.

(** The exhaustive pair scan the design document compares the pruned one
    with: all pairs are scanned, nothing is abandoned. *)
Fixpoint scan_all_from (rows : list nat) (gr : Graph_s) (vs : list Z)
    (edge_set : list Edge) (calc : Z) : res (Graph_s * list Edge * Z) :=
  match rows with
  | [] => Ok (gr, edge_set, calc)
  | i :: rows' =>
      '(gr', edge_set', calc') ← Generator.scan_row gr vs i (seq 0 i) edge_set calc;
      scan_all_from rows' gr' vs edge_set' calc'
  end.

Definition scan_all (gr : Graph_s) (vs : list Z) : res (Graph_s * list Edge * Z) :=
  scan_all_from (seq 1 (length vs - 1)) gr vs [] 0.

(** The part of an iteration's result that other processes and later
    iterations can observe: locals, shared state and what was published. *)
Definition publication (a : Generator.action) : option (Z * Fb_arc_set) :=
  match a with
  | Generator.Published slot fb => Some (slot, fb)
  | _ => None
  end.

Definition verdict (r : res (Generator.locals * shared * Generator.action))
    : res (Generator.locals * shared * option (Z * Fb_arc_set)) :=
  '(st, sh, a) ← r; Ok (st, sh, publication a).

(** The back-edges of an ordering, in scan order. *)
Definition pair_edge (gr : Graph_s) (vs : list Z) (i j : nat) : list Edge :=
  match vs !! i, vs !! j with
  | Some vi, Some vj => if is_edge gr vi vj then [mk_Edge vi vj] else []
  | _, _ => []
  end.

Definition row_edges (gr : Graph_s) (vs : list Z) (i : nat) (js : list nat) : list Edge :=
  js ≫= pair_edge gr vs i.

Definition rows_edges (gr : Graph_s) (vs : list Z) (rows : list nat) : list Edge :=
  rows ≫= λ i, row_edges gr vs i (seq 0 i).

Definition back_edges (gr : Graph_s) (vs : list Z) : list Edge :=
  rows_edges gr vs (seq 1 (length vs - 1)).

(** The labels of an argument list, and the steps of the whole system on
    the shared state. *)
Definition labels (args : list (Z * Z)) : list Z :=
  args ≫= λ a, [a.1; a.2].

Inductive sys_step : shared → shared → Prop :=
  | step_supervisor rets st sh st' sh' ev :
      Supervisor.iteration rets st sh = Ok (st', sh', ev) → sys_step sh sh'
  | step_supervisor_signal st sh st' rb' :
      Supervisor.signal_handler st (ring_buf sh) = (st', rb') →
      sys_step sh {| ring_buf := rb'; excl_sem := excl_sem sh; used_sem := used_sem sh;
                     free_sem := free_sem sh |}
  | step_generator rets vs st sh st' sh' a :
      Generator.iteration rets vs st sh = Ok (st', sh', a) → sys_step sh sh'.

(** An [int] that is not negative. *)
Definition int_nonneg (x : Z) : Prop := 0 <= x <= INT_MAX.

(** [es] holds exactly the edges whose source stands after its target. *)
Definition collects_back_edges (gr : Graph_s) (vs : list Z) (es : list Edge) : Prop :=
  ∀ u v, mk_Edge u v ∈ es ↔ is_edge gr u v = true ∧ appears_after vs u v.

(** No edge left after removing [es] points backwards in [vs]. *)
Definition residual_consistent (gr : Graph_s) (vs : list Z) (es : list Edge) : Prop :=
  ∀ u v, residual_edge gr es u v → ¬ appears_after vs u v.

(** ** Fixtures and tactics *)

Definition ok_or {A : Type} (dflt : A) (r : res A) : A :=
  match r with Ok a => a | _ => dflt end.

Definition no_locals : Generator.locals :=
  {| Generator.g := graph_create 0; Generator.vertex_set := [];
     Generator.best_fb_size_l := 0; Generator.write_at := 0; Generator.quit_l := 0 |}.

(** A 3-cycle; a graph in which vertex 0 has 15 successors and vertex 1
    has 14; an acyclic path. *)
Definition cycle3_args : list (Z * Z) := [(0, 1); (1, 2); (2, 0)].
Definition fan_args : list (Z * Z) :=
  ((λ x, (0, x)) <$> reverse (seqZ 1 15)) ++ ((λ x, (1, x)) <$> reverse (seqZ 2 14)).
Definition path3_args : list (Z * Z) := [(0, 1); (1, 2)].

Definition cycle3 : Generator.locals := ok_or no_locals (Generator.setup cycle3_args).
Definition fan : Generator.locals := ok_or no_locals (Generator.setup fan_args).
Definition path3 : Generator.locals := ok_or no_locals (Generator.setup path3_args).

(** The supervisor's shared state at loop entry, with [best_fb_size]
    replaced by [n]; and the kernel answering every call with success. *)
Definition shared_with_best (n : Z) : shared :=
  let sh := Supervisor.setup.2 in
  {| ring_buf := {| acyclic := acyclic (ring_buf sh); quit := quit (ring_buf sh);
                    best_fb_size := n; sets := sets (ring_buf sh) |};
     excl_sem := excl_sem sh; used_sem := used_sem sh; free_sem := free_sem sh |}.

Definition all_ok : Generator.sem_rets :=
  {| Generator.wait_excl := SemOk; Generator.wait_free := SemOk;
     Generator.post_used := SemOk; Generator.post_excl := SemOk |}.

Definition with_best (st : Generator.locals) (b : Z) : Generator.locals :=
  {| Generator.g := Generator.g st; Generator.vertex_set := Generator.vertex_set st;
     Generator.best_fb_size_l := b; Generator.write_at := Generator.write_at st;
     Generator.quit_l := Generator.quit_l st |}.

Ltac res_inv :=
  repeat match goal with
  | H : (?m ≫= _) = Ok _ |- _ =>
      let Hm := fresh "Hbind" in
      destruct m eqn:Hm; cbn [mbind res_mbind res_bind] in H; try discriminate H
  end.

Definition sup_ok : Supervisor.sem_rets :=
  {| Supervisor.getval_free := SemOk; Supervisor.getval_used := SemOk;
     Supervisor.wait_used := SemOk; Supervisor.post_free := SemOk |}.

(** ** Further functions of [fb_arc_set.c] *)

Definition INT_MIN : Z := -2147483648.

(** [generate_random]; [rand] is the value [rand()] returns. *)
Definition generate_random (rand : Z) (lower upper : Z) : Z :=
  rand `rem` (upper - lower + 1) + lower.

(** [shuffle_vertex_set]; [rand k] is the value of the call of [rand()]
    in pass [k] of the loop. [todo] passes are left, [i] is the loop
    counter. *)
Fixpoint shuffle_loop (rand : nat → Z) (todo i : nat) (size : Z) (set : list Z)
    : res (list Z) :=
  match todo with
  | O => Ok set
  | S todo' =>
      let rand_pos := generate_random (rand i) (Z.of_nat i) (size - 1) in
      if rand_pos <? 0 then Undef
      else
        match set !! i, set !! Z.to_nat rand_pos with
        | Some temp, Some x =>
            shuffle_loop rand todo' (S i) size
              (<[Z.to_nat rand_pos := temp]> (<[i := x]> set))
        | _, _ => Undef
        end
  end.

Definition shuffle_vertex_set (rand : nat → Z) (set : list Z) (size : nat) : res (list Z) :=
  shuffle_loop rand size 0 (Z.of_nat size) set.

(** A C string: the characters before the terminating NUL, as character
    codes. *)
Definition is_digit (c : Z) : bool := (48 <=? c) && (c <=? 57).

(** The digit loops of [src_from_arg] and [trgt_from_arg]:
    [n = 10 * n + (arg[i] - '0')] while [arg[i]] is a digit and differs
    from [stop] (the hyphen in the one, NUL in the other). *)
Fixpoint digits_value (stop : Z) (n : Z) (s : list Z) : Z :=
  match s with
  | c :: s' =>
      if is_digit c && negb (c =? stop)
      then digits_value stop (wrap_int (10 * n + (c - 48))) s'
      else n
  | [] => n
  end.

Definition src_from_arg (arg : list Z) : Z := digits_value 45 0 arg.

(** [while (arg[i] != '-') ++i; ++i;]: what follows the first hyphen. With
    no hyphen the loop runs past the end of the string. *)
Fixpoint after_hyphen (s : list Z) : res (list Z) :=
  match s with
  | [] => Undef
  | c :: s' => if c =? 45 then Ok s' else after_hyphen s'
  end.

Definition trgt_from_arg (arg : list Z) : res Z :=
  s ← after_hyphen arg; Ok (digits_value 0 0 s).

(** [assert_edge_format]: [regexec] of the pattern [[0-9]-[0-9]], which
    is not anchored, so it searches the argument for a digit, a hyphen and
    a digit in a row. [regcomp_ok = false]: [regcomp] fails. *)
Fixpoint regexec_edge (arg : list Z) : bool :=
  match arg with
  | a :: rest =>
      match rest with
      | h :: b :: _ => (is_digit a && (h =? 45) && is_digit b) || regexec_edge rest
      | _ => false
      end
  | [] => false
  end.

Definition assert_edge_format (regcomp_ok : bool) (arg : list Z) : res bool :=
  if regcomp_ok then Ok (regexec_edge arg) else ExitFailure.

(** The first loop of the generator's [main] on [argv[1..]], without the
    bookkeeping of [max_set]: format check ([usage] exits), then the two
    labels. *)
Fixpoint parse_args (regcomp_ok : bool) (argv : list (list Z)) : res (list (Z * Z)) :=
  match argv with
  | [] => Ok []
  | arg :: argv' =>
      good ← assert_edge_format regcomp_ok arg;
      if good : bool then
        trgt ← trgt_from_arg arg;
        rest ← parse_args regcomp_ok argv';
        Ok ((src_from_arg arg, trgt) :: rest)
      else ExitFailure
  end.

(** [main] of the generator up to the main loop. *)
Definition generator_start (regcomp_ok : bool) (argv : list (list Z)) : res Generator.locals :=
  if bool_decide (argv = []) then ExitFailure
  else args ← parse_args regcomp_ok argv; Generator.setup args.


(** ** Further specification vocabulary *)

(** The successor array has room for its [d] entries. *)
Definition within_capacity (gr : Graph_s) : Prop :=
  Forall (λ s, d s <= len s) (alist gr).

(** Number of slots marked written. *)
Definition occupied (slots : list Fb_arc_set) : Z :=
  Z.of_nat (length (filter (λ s, written s = true) slots)).

(** The ring buffer and its counting semaphores agree. *)
Record ring_inv (sh : shared) : Prop := mk_ring_inv {
  ring_slots : length (sets (ring_buf sh)) = Z.to_nat BUF_SIZE;
  ring_used : used_sem sh = occupied (sets (ring_buf sh));
  ring_free : used_sem sh + free_sem sh = BUF_SIZE
}.


(** Decimal text of a natural number, most significant digit first. *)
Fixpoint decimal_digits (fuel : nat) (n : Z) (acc : list Z) : list Z :=
  match fuel with
  | O => acc
  | S fuel' =>
      let acc' := (48 + n `mod` 10) :: acc in
      if n `div` 10 =? 0 then acc' else decimal_digits fuel' (n `div` 10) acc'
  end.

Definition decimal (n : Z) : list Z := decimal_digits (S (Z.to_nat n)) n [].

Definition edge_text (u v : Z) : list Z := decimal u ++ [45] ++ decimal v.

(** * Properties *)

(** ** The comparator, [qsort] and [bsearch] *)

Lemma cmpfunc_exact a b : int_nonneg a → int_nonneg b → cmpfunc a b = a - b.
Proof.
  unfold int_nonneg, INT_MAX, cmpfunc, wrap_int. intros Ha Hb.
  rewrite Z.mod_small by lia. lia.
Qed.

Lemma qsort_insert_perm cmp x l : qsort_insert cmp x l ≡ₚ x :: l.
Proof.
  induction l as [|y l IH]; simpl; [done|].
  destruct (cmp x y <=? 0); [done|].
  rewrite IH. apply Permutation_swap.
Qed.

Lemma qsort_cells_perm cmp l : qsort_cells cmp l ≡ₚ l.
Proof.
  induction l as [|x l IH]; simpl; [done|].
  rewrite qsort_insert_perm. by rewrite IH.
Qed.

Lemma qsort_insert_sorted x l :
  int_nonneg x → Forall int_nonneg l → StronglySorted Z.le l →
  StronglySorted Z.le (qsort_insert cmpfunc x l).
Proof.
  intros Hx Hl Hs. induction l as [|y l IH]; simpl.
  - repeat constructor.
  - apply Forall_cons in Hl as [Hy Hl]. apply StronglySorted_cons in Hs as [Hyl Hs].
    rewrite cmpfunc_exact by done.
    destruct (Z.leb_spec (x - y) 0).
    + apply StronglySorted_cons. split.
      * constructor; [lia|]. eapply Forall_impl; [exact Hyl|]. simpl. lia.
      * by apply StronglySorted_cons.
    + apply StronglySorted_cons. split; [|by apply IH].
      rewrite qsort_insert_perm. constructor; [lia|done].
Qed.

Lemma qsort_cells_sorted l :
  Forall int_nonneg l → StronglySorted Z.le (qsort_cells cmpfunc l).
Proof.
  induction 1 as [|x l Hx Hl IH]; simpl; [constructor|].
  apply qsort_insert_sorted; [done| |done].
  by rewrite qsort_cells_perm.
Qed.

Lemma StronglySorted_lookup_le (l : list Z) (i j : nat) x y :
  StronglySorted Z.le l → l !! i = Some x → l !! j = Some y → (i ≤ j)%nat → x <= y.
Proof.
  intros Hs. revert i j. induction Hs as [|a l Hs IH Ha]; intros i j Hi Hj Hij; [done|].
  destruct i as [|i], j as [|j]; simplify_eq/=; try lia.
  - rewrite Forall_lookup in Ha. eauto.
  - eapply IH; eauto. lia.
Qed.

(** The loop of [bsearch] on a sorted array of non-negative [int]s. *)
Lemma bsearch_loop_spec fuel key (base : list Z) l u :
  StronglySorted Z.le base → Forall int_nonneg base → int_nonneg key →
  0 <= l → u <= Z.of_nat (length base) → u - l <= Z.of_nat fuel →
  ∃ b, bsearch_loop fuel cmpfunc key base l u = Ok b ∧
       (b = true ↔ ∃ i : nat, l <= Z.of_nat i < u ∧ base !! i = Some key).
Proof.
  intros Hs Hr Hk. revert l u.
  induction fuel as [|fuel IH]; intros l u Hl Hu Hf; simpl.
  - destruct (Z.ltb_spec l u); [lia|]. exists false. split; [done|].
    split; [done|]. intros (i & ? & _). lia.
  - destruct (Z.ltb_spec l u) as [Hlu|Hlu].
    2:{ exists false. split; [done|]. split; [done|]. intros (i & ? & _). lia. }
    set (idx := (l + u) `div` 2).
    assert (l <= idx < u) as Hidx by (unfold idx; split; [apply Z.div_le_lower_bound|apply Z.div_lt_upper_bound]; lia).
    destruct (base !! Z.to_nat idx) as [p|] eqn:Hp.
    2:{ apply lookup_ge_None in Hp. lia. }
    assert (int_nonneg p) as Hpr by (rewrite Forall_lookup in Hr; eauto).
    rewrite cmpfunc_exact by done.
    destruct (Z.ltb_spec (key - p) 0) as [Hc|Hc].
    { destruct (IH l idx) as (b & -> & Hb); [lia..|]. exists b. split; [done|].
      rewrite Hb. split; intros (i & Hi & Hbi).
      - exists i. split; [lia|done].
      - exists i. split; [|done]. split; [lia|].
        destruct (decide (Z.of_nat i < idx)); [done|].
        pose proof (StronglySorted_lookup_le base (Z.to_nat idx) i p key Hs Hp Hbi). lia. }
    destruct (Z.ltb_spec 0 (key - p)) as [Hc'|Hc'].
    { destruct (IH (idx + 1) u) as (b & -> & Hb); [lia..|]. exists b. split; [done|].
      rewrite Hb. split; intros (i & Hi & Hbi).
      - exists i. split; [lia|done].
      - exists i. split; [|done]. split; [|lia].
        destruct (decide (idx + 1 <= Z.of_nat i)); [done|].
        pose proof (StronglySorted_lookup_le base i (Z.to_nat idx) key p Hs Hbi Hp). lia. }
    exists true. split; [done|]. split; [|done]. intros _.
    exists (Z.to_nat idx). split; [lia|]. rewrite Hp. f_equal. lia.
Qed.

(** ** [graph_has_edge] *)

Lemma existsb_eqb_elem_of (l : list Z) (t : Z) :
  existsb (λ x, x =? t) l = bool_decide (t ∈ l).
Proof.
  induction l as [|x l IH]; cbn [existsb].
  - symmetry. apply bool_decide_eq_false_2, not_elem_of_nil.
  - rewrite IH. destruct (Z.eqb_spec x t) as [->|Hne]; simpl.
    + symmetry. apply bool_decide_eq_true. left.
    + apply bool_decide_ext. rewrite elem_of_cons. split; [by right|]. by intros [?|?].
Qed.

Lemma has_edge_linear_spec s t :
  has_edge_linear s t = bool_decide (t ∈ take (Z.to_nat (d s)) (succ s)).
Proof. apply existsb_eqb_elem_of. Qed.

Lemma wf_succ_take n s : wf_succ n s → take (Z.to_nat (d s)) (succ s) = succ s.
Proof. intros [Hd _ _ _]. apply take_ge. lia. Qed.

Lemma wf_succ_drop n s : wf_succ n s → drop (Z.to_nat (d s)) (succ s) = [].
Proof. intros [Hd _ _ _]. apply drop_ge. lia. Qed.

Lemma bsearch_spec key (base : list Z) :
  StronglySorted Z.le base → Forall int_nonneg base → int_nonneg key →
  bsearch key base (Z.of_nat (length base)) cmpfunc = Ok (bool_decide (key ∈ base)).
Proof.
  intros Hs Hr Hk. unfold bsearch.
  destruct (bsearch_loop_spec (Z.to_nat (Z.of_nat (length base))) key base 0
              (Z.of_nat (length base))) as (b & -> & Hb); [done..|lia|lia|lia|].
  f_equal. destruct b; symmetry.
  - apply bool_decide_eq_true. destruct Hb as [Hb _]. destruct Hb as (i & _ & Hi); [done|].
    by eapply list_elem_of_lookup_2.
  - apply bool_decide_eq_false. intros (i & Hi)%list_elem_of_lookup_1.
    destruct Hb as [_ Hb]. discriminate Hb. exists i. split; [|done].
    apply lookup_lt_Some in Hi. lia.
Qed.

Lemma range_int_nonneg n (l : list Z) :
  n <= INT_MAX → Forall (λ x, 0 <= x < n) l → Forall int_nonneg l.
Proof. intros Hn Hl. eapply Forall_impl; [exact Hl|]. unfold int_nonneg. simpl. lia. Qed.

(** The binary-search branch: it returns, agrees with the linear branch,
    and leaves a well-formed record with the same successors. *)
Lemma has_edge_bsearch_spec n s target :
  n <= INT_MAX → wf_succ n s → 0 <= target < n →
  ∃ s', has_edge_bsearch s target
          = Ok (has_edge_linear s target, negb (is_sorted s), s') ∧
        wf_succ n s' ∧ succ s' ≡ₚ succ s ∧ d s' = d s ∧ is_sorted s' = is_sorted s.
Proof.
  intros Hn Hwf Ht. pose proof Hwf as [Hd Hlen Hr Hsrt].
  unfold has_edge_bsearch.
  set (l' := if is_sorted s then succ s else qsort (succ s) (d s) cmpfunc).
  assert (l' ≡ₚ succ s ∧ StronglySorted Z.le l') as [Hperm Hs'].
  { unfold l'. destruct (is_sorted s); [by auto|].
    unfold qsort. rewrite (wf_succ_take n), (wf_succ_drop n), app_nil_r by done.
    split; [apply qsort_cells_perm|].
    apply qsort_cells_sorted. by eapply range_int_nonneg. }
  assert (Forall (λ x, 0 <= x < n) l') as Hr' by by rewrite Hperm.
  assert (d s = Z.of_nat (length l')) as Hd' by by rewrite Hperm.
  assert (Forall int_nonneg l') as Hnn by (by eapply range_int_nonneg).
  assert (int_nonneg target) as Hnt by (unfold int_nonneg; lia).
  rewrite Hd', bsearch_spec by done.
  simpl. eexists. split.
  - do 3 f_equal. rewrite has_edge_linear_spec, (wf_succ_take n) by done.
    apply bool_decide_ext. by rewrite Hperm.
  - simpl. split_and!; done.
Qed.

Lemma wf_graph_lookup gr u :
  wf_graph gr → 0 <= u < V gr → ∃ s, alist gr !! Z.to_nat u = Some s ∧ wf_succ (V gr) s.
Proof.
  intros [HV Hal Hsu] Hu.
  destruct (lookup_lt_is_Some_2 (alist gr) (Z.to_nat u)) as [s Hs]; [lia|].
  exists s. split; [done|]. rewrite Forall_lookup in Hsu. eauto.
Qed.

Lemma is_edge_lookup gr u v s :
  0 <= u → alist gr !! Z.to_nat u = Some s →
  is_edge gr u v = bool_decide (v ∈ take (Z.to_nat (d s)) (succ s)).
Proof.
  intros Hu Hs. unfold is_edge. rewrite Hs.
  by destruct (Z.leb_spec 0 u); [|lia].
Qed.

(** Replacing a successor record by one with the same successors in
    another order changes no edge. *)
Lemma same_edges_insert gr u s s' :
  wf_graph gr → 0 <= u < V gr → alist gr !! Z.to_nat u = Some s →
  wf_succ (V gr) s' → succ s' ≡ₚ succ s →
  let gr' := {| V := V gr; E := E gr; alist := <[Z.to_nat u := s']> (alist gr) |} in
  wf_graph gr' ∧ same_edges gr gr'.
Proof.
  intros Hwf Hu Hs Hwf' Hperm gr'. pose proof Hwf as [HV Hal Hsu]. split.
  - constructor; simpl; [done|by rewrite length_insert|by apply Forall_insert].
  - split; [done|]. intros a b. unfold is_edge. simpl.
    destruct (Z.leb_spec 0 a) as [Ha|]; [simpl|done].
    destruct (decide (Z.to_nat u = Z.to_nat a)) as [Heq|Hne].
    + rewrite <- Heq, list_lookup_insert_eq, Hs by (apply lookup_lt_Some in Hs; lia).
      rewrite Forall_lookup in Hsu.
      rewrite (wf_succ_take (V gr) s'), (wf_succ_take (V gr) s) by eauto.
      apply bool_decide_ext. by rewrite Hperm.
    + by rewrite list_lookup_insert_ne.
Qed.

Lemma same_edges_refl gr : same_edges gr gr.
Proof. by split. Qed.

Lemma same_edges_trans g1 g2 g3 : same_edges g1 g2 → same_edges g2 g3 → same_edges g1 g3.
Proof. intros [H1 H2] [H3 H4]. split; [congruence|]. intros. by rewrite H4, H2. Qed.

Lemma vertices_of_same g1 g2 vs : same_edges g1 g2 → vertices_of g1 vs → vertices_of g2 vs.
Proof. intros [HV _]. unfold vertices_of. by rewrite HV. Qed.

Lemma graph_out_degree_ok gr u s :
  0 <= u < V gr → alist gr !! Z.to_nat u = Some s → graph_out_degree gr u = Ok (d s).
Proof.
  intros Hu Hs. unfold graph_out_degree, assert.
  destruct (Z.leb_spec 0 u); [|lia]. destruct (Z.ltb_spec u (V gr)); [|lia].
  simpl. by rewrite Hs.
Qed.

(** [graph_has_edge] on a well-formed graph: it returns, its answer is
    membership in the successor array on either branch, and the graph it
    leaves has the same edges. *)
Lemma graph_has_edge_spec gr source target :
  wf_graph gr → 0 <= source < V gr → 0 <= target < V gr →
  ∃ r, graph_has_edge gr source target = Ok r ∧
       he_found r = is_edge gr source target ∧
       wf_graph (he_graph r) ∧ same_edges gr (he_graph r).
Proof.
  intros Hwf Hs Ht. destruct (wf_graph_lookup gr source) as (s & Hl & Hws); [done..|].
  unfold graph_has_edge. rewrite (graph_out_degree_ok gr source s) by done.
  simpl. rewrite Hl.
  destruct (BSEARCH_PROMPT_SIZE <=? d s).
  - destruct (has_edge_bsearch_spec (V gr) s target) as (s' & Heq & Hws' & Hp & _);
      [apply Hwf|done..|].
    rewrite Heq. simpl. eexists. split; [done|]. simpl.
    split; [by rewrite has_edge_linear_spec, (is_edge_lookup gr source target s ltac:(lia) Hl)|].
    by eapply same_edges_insert.
  - eexists. split; [done|]. simpl.
    split; [by rewrite has_edge_linear_spec, (is_edge_lookup gr source target s ltac:(lia) Hl)|].
    split; [done|apply same_edges_refl].
Qed.

(** ** Graph construction *)

Lemma grow_len_ok fuel dd ll :
  1 <= ll → dd < ll + Z.of_nat fuel →
  ∃ l', grow_len fuel dd ll = Ok l' ∧ 1 <= l'.
Proof.
  revert ll. induction fuel as [|fuel IH]; intros ll Hl Hd; simpl.
  - destruct (Z.leb_spec ll dd); [lia|]. eauto.
  - destruct (Z.leb_spec ll dd); [|by eauto]. apply IH; lia.
Qed.

Lemma graph_create_wf n : 0 <= n <= INT_MAX → wf_graph (graph_create n).
Proof.
  intros Hn. constructor; simpl; [done|by rewrite length_replicate|].
  apply Forall_replicate. constructor; simpl; [done..|constructor|constructor].
Qed.

Lemma graph_create_no_edge n u v : is_edge (graph_create n) u v = false.
Proof.
  unfold is_edge, graph_create. simpl.
  destruct (0 <=? u); [simpl|done].
  destruct (replicate _ _ !! _) as [s|] eqn:Hs; [|done].
  apply lookup_replicate in Hs as [-> _]. done.
Qed.

Lemma assert_true (b : bool) : b = true → assert b = Ok ().
Proof. by intros ->. Qed.

(** [graph_add_edge] with both labels inside [0, V): it returns, keeps the
    invariant, and adds exactly the edge [u -> v]. *)
Lemma graph_add_edge_ok gr u v :
  wf_graph gr → 0 <= u < V gr → 0 <= v < V gr →
  ∃ gr', graph_add_edge gr u v = Ok gr' ∧ wf_graph gr' ∧
         V gr' = V gr ∧ E gr' = E gr + 1 ∧
         ∀ a b, is_edge gr' a b = is_edge gr a b || ((a =? u) && (b =? v)).
Proof.
  intros Hwf Hu Hv. destruct (wf_graph_lookup gr u) as (s & Hl & Hws); [done..|].
  pose proof Hwf as [HV Hal Hsu]. pose proof Hws as [Hd Hlen Hr Hsrt].
  unfold graph_add_edge.
  rewrite !assert_true by lia. cbn -[grow_len]. rewrite Hl.
  destruct (grow_len_ok (S (Z.to_nat (d s))) (d s) (len s)) as (l' & -> & Hl'); [lia..|].
  simpl. eexists. split; [done|].
  assert (wf_succ (V gr)
            {| d := d s + 1; len := l'; is_sorted := false;
               succ := take (Z.to_nat (d s)) (succ s) ++ [v] |}) as Hws'.
  { rewrite (wf_succ_take (V gr)) by done.
    constructor; simpl; [rewrite length_app; simpl; lia|done| |done].
    apply Forall_app. split; [done|]. by apply Forall_singleton. }
  split_and!; simpl; try done.
  - constructor; simpl; [done|by rewrite length_insert|by apply Forall_insert].
  - intros a b. unfold is_edge. simpl.
    destruct (Z.leb_spec 0 a) as [Ha|Ha]; simpl.
    2:{ destruct (Z.eqb_spec a u); [lia|done]. }
    destruct (Z.eqb_spec a u) as [->|Hne]; simpl.
    + rewrite list_lookup_insert_eq, Hl by (apply lookup_lt_Some in Hl; lia).
      simpl. rewrite Z2Nat.inj_add, take_app_add' by (try rewrite length_take; lia).
      rewrite (wf_succ_take (V gr)) by done. simpl.
      destruct (Z.eqb_spec b v) as [->|Hbv].
      * rewrite orb_true_r. apply bool_decide_eq_true. set_solver.
      * rewrite orb_false_r. apply bool_decide_ext. set_solver.
    + rewrite list_lookup_insert_ne by lia. by rewrite orb_false_r.
Qed.

(** A label outside [0, V) trips one of the four assertions. *)
Lemma graph_add_edge_fail gr u v :
  ¬ (0 <= u < V gr ∧ 0 <= v < V gr) → graph_add_edge gr u v = AssertFail.
Proof.
  intros Hn. unfold graph_add_edge, assert.
  destruct (Z.leb_spec 0 u); [|done]. destruct (Z.ltb_spec u (V gr)); [|done].
  destruct (Z.leb_spec 0 v); [|done]. destruct (Z.ltb_spec v (V gr)); [|done]. lia.
Qed.

Lemma elem_of_labels (args : list (Z * Z)) x :
  x ∈ labels args ↔ ∃ a, a ∈ args ∧ (x = a.1 ∨ x = a.2).
Proof.
  unfold labels. rewrite list_elem_of_bind. split.
  - intros (a & Hx & Ha). exists a. set_solver.
  - intros (a & Ha & Hx). exists a. set_solver.
Qed.

Lemma add_edges_ok gr args :
  wf_graph gr → Forall (λ x, 0 <= x < V gr) (labels args) →
  ∃ gr', Generator.add_edges gr args = Ok gr' ∧ wf_graph gr' ∧
         V gr' = V gr ∧ E gr' = E gr + Z.of_nat (length args) ∧
         ∀ a b, is_edge gr' a b = is_edge gr a b || bool_decide ((a, b) ∈ args).
Proof.
  revert gr. induction args as [|[u v] args IH]; intros gr Hwf Hr; simpl.
  - exists gr. split_and!; try done; [lia|]. intros a b. by rewrite orb_false_r.
  - apply Forall_cons in Hr as [Hu Hr]. apply Forall_cons in Hr as [Hv Hr].
    destruct (graph_add_edge_ok gr u v) as (g1 & -> & Hwf1 & HV1 & HE1 & Hed1); [done..|].
    simpl. destruct (IH g1) as (g2 & -> & Hwf2 & HV2 & HE2 & Hed2); [done|by rewrite HV1|].
    exists g2. split_and!; try done; [congruence|lia|].
    intros a b. rewrite Hed2, Hed1, <- orb_assoc. f_equal.
    destruct (Z.eqb_spec a u) as [->|?], (Z.eqb_spec b v) as [->|?]; simpl.
    + symmetry. apply bool_decide_eq_true. set_solver.
    + apply bool_decide_ext. set_solver.
    + apply bool_decide_ext. set_solver.
    + apply bool_decide_ext. set_solver.
Qed.

Lemma add_edges_fail gr args x :
  wf_graph gr → x ∈ labels args → ¬ (0 <= x < V gr) →
  Generator.add_edges gr args = AssertFail.
Proof.
  revert gr. induction args as [|[u v] args IH]; intros gr Hwf Hx Hn; simpl.
  - by apply elem_of_nil in Hx.
  - destruct (decide (0 <= u < V gr ∧ 0 <= v < V gr)) as [[Hu Hv]|Hbad].
    + destruct (graph_add_edge_ok gr u v) as (g1 & -> & Hwf1 & HV1 & _); [done..|].
      simpl. apply IH; [done| |by rewrite HV1].
      unfold labels in Hx. simpl in Hx.
      rewrite !elem_of_cons in Hx. destruct Hx as [->|[->|Hx]]; [lia|lia|done].
    + by rewrite graph_add_edge_fail.
Qed.

Lemma val_in_arr_spec val (arr : list Z) :
  val_in_arr val arr (length arr) = bool_decide (val ∈ arr).
Proof. unfold val_in_arr. rewrite firstn_all. apply existsb_eqb_elem_of. Qed.

Lemma collect_spec m a :
  NoDup m →
  NoDup (Generator.collect m a) ∧
  (∀ x, x ∈ Generator.collect m a ↔ x ∈ m ∨ x = a.1 ∨ x = a.2) ∧
  (length (Generator.collect m a) ≤ length m + 2)%nat.
Proof.
  intros Hm. unfold Generator.collect. rewrite !val_in_arr_spec.
  destruct (bool_decide_reflect (a.1 ∈ m)) as [H1|H1].
  - destruct (bool_decide_reflect (a.2 ∈ m)) as [H2|H2].
    + split_and!; [done| |lia]. set_solver.
    + split_and!; [|set_solver|rewrite length_app; simpl; lia].
      apply NoDup_app. split_and!; [done|set_solver|apply NoDup_singleton].
  - assert (NoDup (m ++ [a.1])) as Hm'.
    { apply NoDup_app. split_and!; [done|set_solver|apply NoDup_singleton]. }
    destruct (bool_decide_reflect (a.2 ∈ m ++ [a.1])) as [H2|H2].
    + split_and!; [done|set_solver|rewrite length_app; simpl; lia].
    + split_and!; [|set_solver|rewrite !length_app; simpl; lia].
      apply NoDup_app. split_and!; [done|set_solver|apply NoDup_singleton].
Qed.

Lemma foldl_collect_spec args m :
  NoDup m →
  NoDup (foldl Generator.collect m args) ∧
  (∀ x, x ∈ foldl Generator.collect m args ↔ x ∈ m ∨ x ∈ labels args) ∧
  (length (foldl Generator.collect m args) ≤ length m + 2 * length args)%nat.
Proof.
  revert m. induction args as [|a args IH]; intros m Hm; simpl.
  - split_and!; [done| |lia]. set_solver.
  - destruct (collect_spec m a Hm) as (Hnd & Hel & Hlen).
    destruct (IH _ Hnd) as (Hnd' & Hel' & Hlen'). split_and!; [done| |lia].
    intros x. rewrite Hel', Hel. unfold labels. simpl. rewrite !elem_of_cons. tauto.
Qed.

(** [num_v] is the number of distinct labels. *)
Lemma foldl_collect_length args :
  length (foldl Generator.collect [] args) = length (remove_dups (labels args)).
Proof.
  destruct (foldl_collect_spec args []) as (Hnd & Hel & _); [constructor|].
  apply Permutation_length, NoDup_Permutation; [done|apply NoDup_remove_dups|].
  intros x. rewrite Hel, elem_of_remove_dups. set_solver.
Qed.

(** A duplicate-free list whose members are exactly [0 .. k-1] has [k]
    cells. *)
Lemma dense_length (l : list Z) k :
  0 <= k → NoDup l → (∀ x, x ∈ l ↔ 0 <= x < k) → Z.of_nat (length l) = k.
Proof.
  intros Hk Hnd Hel.
  assert (l ≡ₚ seqZ 0 k) as ->.
  { apply NoDup_Permutation; [done|apply NoDup_seqZ|]. intros x.
    rewrite Hel, elem_of_seqZ. lia. }
  rewrite length_seqZ. lia.
Qed.

(** ** The pair scan *)

Lemma pair_edge_same g1 g2 vs i j :
  same_edges g1 g2 → pair_edge g2 vs i j = pair_edge g1 vs i j.
Proof.
  intros [_ He]. unfold pair_edge.
  destruct (vs !! i), (vs !! j); try done. by rewrite He.
Qed.

Lemma row_edges_same g1 g2 vs i js :
  same_edges g1 g2 → row_edges g2 vs i js = row_edges g1 vs i js.
Proof.
  intros Hs. unfold row_edges. induction js as [|j js IH]; [done|].
  cbn. by rewrite IH, (pair_edge_same g1 g2).
Qed.

Lemma rows_edges_same g1 g2 vs rows :
  same_edges g1 g2 → rows_edges g2 vs rows = rows_edges g1 vs rows.
Proof.
  intros Hs. unfold rows_edges. induction rows as [|i rows IH]; [done|].
  cbn. by rewrite IH, (row_edges_same g1 g2).
Qed.

Lemma vertices_of_lookup gr (vs : list Z) (i : nat) :
  vertices_of gr vs → (i < length vs)%nat → ∃ x, vs !! i = Some x ∧ 0 <= x < V gr.
Proof.
  intros Hv Hi. destruct (lookup_lt_is_Some_2 vs i Hi) as [x Hx].
  exists x. split; [done|]. unfold vertices_of in Hv. rewrite Forall_lookup in Hv. eauto.
Qed.

(** The inner loop appends the back-edges of row [i], in order. *)
Lemma scan_row_spec gr vs i js es c :
  wf_graph gr → vertices_of gr vs → (i < length vs)%nat →
  Forall (λ j, (j < length vs)%nat) js →
  ∃ gr', Generator.scan_row gr vs i js es c
           = Ok (gr', es ++ row_edges gr vs i js,
                 c + Z.of_nat (length (row_edges gr vs i js))) ∧
         wf_graph gr' ∧ same_edges gr gr'.
Proof.
  intros Hwf Hvs Hi Hjs. revert gr es c Hwf Hvs.
  induction Hjs as [|j js Hj Hjs IH]; intros gr es c Hwf Hvs.
  - exists gr. cbn. rewrite app_nil_r, Z.add_0_r. split_and!; [done..|apply same_edges_refl].
  - destruct (vertices_of_lookup gr vs i) as (vi & Hvi & Hri); [done..|].
    destruct (vertices_of_lookup gr vs j) as (vj & Hvj & Hrj); [done..|].
    cbn [Generator.scan_row]. rewrite Hvi, Hvj.
    destruct (graph_has_edge_spec gr vi vj) as (r & -> & Hf & Hwf' & Hse); [done..|].
    cbn [mbind res_mbind res_bind].
    assert (row_edges gr vs i (j :: js)
            = (if is_edge gr vi vj then [mk_Edge vi vj] else []) ++ row_edges gr vs i js) as ->.
    { unfold row_edges. cbn. unfold pair_edge at 1. by rewrite Hvi, Hvj. }
    rewrite Hf.
    destruct (is_edge gr vi vj).
    + destruct (IH (he_graph r) (es ++ [mk_Edge vi vj]) (c + 1)) as (g2 & -> & Hwf2 & Hse2);
        [done|by eapply vertices_of_same|].
      exists g2. rewrite (row_edges_same gr) by done.
      split_and!; [|done|by eapply same_edges_trans].
      rewrite <- app_assoc. cbn [app length]. do 2 f_equal. lia.
    + destruct (IH (he_graph r) es c) as (g2 & -> & Hwf2 & Hse2);
        [done|by eapply vertices_of_same|].
      exists g2. rewrite (row_edges_same gr) by done.
      split_and!; [done|done|by eapply same_edges_trans].
Qed.

Lemma Forall_seq_lt (i n : nat) : (i ≤ n)%nat → Forall (λ j, (j < n)%nat) (seq 0 i).
Proof. intros Hi. apply Forall_seq. intros j Hj. lia. Qed.

(** The exhaustive scan: it returns all back-edges of the rows. *)
Lemma scan_all_from_spec rows gr vs es c :
  wf_graph gr → vertices_of gr vs → Forall (λ i, (i < length vs)%nat) rows →
  ∃ gr', scan_all_from rows gr vs es c
           = Ok (gr', es ++ rows_edges gr vs rows,
                 c + Z.of_nat (length (rows_edges gr vs rows))) ∧
         wf_graph gr' ∧ same_edges gr gr'.
Proof.
  intros Hwf Hvs Hrows. revert gr es c Hwf Hvs.
  induction Hrows as [|i rows Hi Hrows IH]; intros gr es c Hwf Hvs.
  - exists gr. cbn. rewrite app_nil_r, Z.add_0_r. split_and!; [done..|apply same_edges_refl].
  - cbn [scan_all_from].
    destruct (scan_row_spec gr vs i (seq 0 i) es c) as (g1 & -> & Hwf1 & Hse1);
      [done|done|done|apply Forall_seq_lt; lia|].
    cbn [mbind res_mbind res_bind].
    destruct (IH g1 (es ++ row_edges gr vs i (seq 0 i))
                 (c + Z.of_nat (length (row_edges gr vs i (seq 0 i)))))
      as (g2 & -> & Hwf2 & Hse2); [done|by eapply vertices_of_same|].
    exists g2. rewrite (rows_edges_same gr) by done.
    split_and!; [|done|by eapply same_edges_trans].
    assert (rows_edges gr vs (i :: rows)
            = row_edges gr vs i (seq 0 i) ++ rows_edges gr vs rows) as -> by done.
    rewrite <- app_assoc, length_app. do 2 f_equal. lia.
Qed.

(** The scan of the generator: it returns; when it ran to its end it holds
    all back-edges; when it was abandoned the number of back-edges is at
    least [best]. *)
Lemma scan_from_spec rows gr vs best es c :
  wf_graph gr → vertices_of gr vs → Forall (λ i, (i < length vs)%nat) rows →
  ∃ gr' sr, Generator.scan_from rows gr vs best es c = Ok (gr', sr) ∧
            wf_graph gr' ∧ same_edges gr gr' ∧
            match sr with
            | Generator.ScanAborted =>
                best <= c + Z.of_nat (length (rows_edges gr vs rows))
            | Generator.ScanDone es' c' =>
                es' = es ++ rows_edges gr vs rows ∧
                c' = c + Z.of_nat (length (rows_edges gr vs rows))
            end.
Proof.
  intros Hwf Hvs Hrows. revert gr es c Hwf Hvs.
  induction Hrows as [|i rows Hi Hrows IH]; intros gr es c Hwf Hvs.
  - exists gr, (Generator.ScanDone es c). cbn. rewrite app_nil_r, Z.add_0_r.
    split_and!; [done..|apply same_edges_refl|done|done].
  - cbn [Generator.scan_from].
    destruct (scan_row_spec gr vs i (seq 0 i) es c) as (g1 & -> & Hwf1 & Hse1);
      [done|done|done|apply Forall_seq_lt; lia|].
    cbn [mbind res_mbind res_bind].
    assert (rows_edges gr vs (i :: rows)
            = row_edges gr vs i (seq 0 i) ++ rows_edges gr vs rows) as Hcons by done.
    destruct (Z.leb_spec best (c + Z.of_nat (length (row_edges gr vs i (seq 0 i))))) as [Hb|Hb].
    + exists g1, Generator.ScanAborted. split_and!; [done..|].
      rewrite Hcons, length_app. lia.
    + destruct (IH g1 (es ++ row_edges gr vs i (seq 0 i))
                   (c + Z.of_nat (length (row_edges gr vs i (seq 0 i)))))
        as (g2 & sr & -> & Hwf2 & Hse2 & Hsr); [done|by eapply vertices_of_same|].
      exists g2, sr. split_and!; [done|done|by eapply same_edges_trans|].
      rewrite (rows_edges_same gr) in Hsr by done. rewrite Hcons, length_app.
      destruct sr as [|es' c']; [lia|]. destruct Hsr as [-> ->].
      rewrite <- app_assoc. split; [done|lia].
Qed.

Lemma rows_lt (n : nat) : Forall (λ i, (i < n)%nat) (seq 1 (n - 1)).
Proof. apply Forall_seq. intros j Hj. lia. Qed.

Lemma elem_of_pair_edge gr vs i j e :
  e ∈ pair_edge gr vs i j ↔
  ∃ vi vj, vs !! i = Some vi ∧ vs !! j = Some vj ∧ is_edge gr vi vj = true ∧ e = mk_Edge vi vj.
Proof.
  unfold pair_edge. destruct (vs !! i) as [vi|], (vs !! j) as [vj|];
    try (split; [by intros ?%elem_of_nil|by intros (? & ? & ? & ? & _)]).
  destruct (is_edge gr vi vj) eqn:He.
  - rewrite list_elem_of_singleton. split; [intros ->; eauto 10|].
    by intros (? & ? & [= <-] & [= <-] & _ & ->).
  - split; [by intros ?%elem_of_nil|]. intros (? & ? & [= <-] & [= <-] & ? & _). congruence.
Qed.

(** The back-edges are the edges whose source stands after its target. *)
Lemma elem_of_back_edges gr vs u v :
  mk_Edge u v ∈ back_edges gr vs ↔ is_edge gr u v = true ∧ appears_after vs u v.
Proof.
  unfold back_edges, rows_edges, row_edges, appears_after.
  rewrite list_elem_of_bind. split.
  - intros (i & (j & (vi & vj & Hi & Hj & He & [= -> ->])%elem_of_pair_edge
                   & Hjs%elem_of_seq)%list_elem_of_bind & His%elem_of_seq).
    split; [done|]. exists i, j. split; [lia|done].
  - intros (He & i & j & Hij & Hi & Hj). exists i. split.
    + apply list_elem_of_bind. exists j. split.
      * apply elem_of_pair_edge. eauto 10.
      * apply elem_of_seq. lia.
    + apply elem_of_seq. apply lookup_lt_Some in Hi. lia.
Qed.

(** ** Claims *)

(** What [setup] returns on a non-empty argument list whose labels all lie
    below the number of distinct labels. *)
Lemma setup_ok (args : list (Z * Z)) :
  args ≠ [] → 2 * (Z.of_nat (length args) + 1) <= INT_MAX →
  Forall (λ x, 0 <= x < Z.of_nat (length (remove_dups (labels args)))) (labels args) →
  ∃ st, Generator.setup args = Ok st ∧
        wf_graph (Generator.g st) ∧
        V (Generator.g st) = Z.of_nat (length (remove_dups (labels args))) ∧
        E (Generator.g st) = Z.of_nat (length args) ∧
        (∀ u v, is_edge (Generator.g st) u v = bool_decide ((u, v) ∈ args)) ∧
        vertices_of (Generator.g st) (Generator.vertex_set st) ∧
        Generator.best_fb_size_l st = Z.of_nat (length args) - 1.
Proof.
  intros Hne Hargc Hr. unfold Generator.setup.
  rewrite bool_decide_eq_false_2 by done.
  destruct (foldl_collect_spec args []) as (Hnd & Hel & Hlen); [constructor|].
  pose proof (foldl_collect_length args) as Hk. simpl in Hlen.
  set (m := foldl Generator.collect [] args) in *.
  assert (wf_graph (graph_create (Z.of_nat (length m)))) as Hwf0.
  { apply graph_create_wf. lia. }
  unfold graph_vertex_count, graph_edge_count.
  rewrite !assert_true by (simpl; lia). cbn [mbind res_mbind res_bind].
  destruct (add_edges_ok (graph_create (Z.of_nat (length m))) args)
    as (g' & -> & Hwf' & HV' & HE' & Hed); [done|simpl; by rewrite Hk|].
  cbn [mbind res_mbind res_bind].
  rewrite assert_true by (simpl in HE'; lia). cbn [mbind res_mbind res_bind].
  eexists. split; [done|]. simpl. split_and!; try done.
  - rewrite HV'. simpl. by rewrite Hk.
  - intros u v. by rewrite Hed, graph_create_no_edge.
  - unfold vertices_of. rewrite HV'. simpl. apply Forall_forall. intros x Hx.
    apply Hel in Hx as [Hx|Hx]; [by apply elem_of_nil in Hx|].
    rewrite Forall_forall in Hr. rewrite Hk. by apply Hr.
Qed.

Lemma setup_fail (args : list (Z * Z)) x :
  args ≠ [] → 2 * (Z.of_nat (length args) + 1) <= INT_MAX →
  x ∈ labels args → ¬ (0 <= x < Z.of_nat (length (remove_dups (labels args)))) →
  Generator.setup args = AssertFail.
Proof.
  intros Hne Hargc Hx Hbad. unfold Generator.setup.
  rewrite bool_decide_eq_false_2 by done.
  destruct (foldl_collect_spec args []) as (_ & _ & Hlen); [constructor|].
  pose proof (foldl_collect_length args) as Hk. simpl in Hlen.
  set (m := foldl Generator.collect [] args) in *.
  unfold graph_vertex_count, graph_edge_count.
  rewrite !assert_true by (simpl; lia). cbn [mbind res_mbind res_bind].
  rewrite (add_edges_fail _ args x); [done| |done|simpl; by rewrite Hk].
  apply graph_create_wf. lia.
Qed.

(** C10. [setup] gives the graph as many vertices as the arguments have
    distinct labels; a label outside [0, k) for that number [k] makes an
    assertion of [graph_add_edge] fail; when the labels are exactly
    [0 .. k-1] every edge is added and the graph holds exactly the
    argument edges. *)
Theorem setup_needs_dense_labels (args : list (Z * Z)) :
  args ≠ [] → 2 * (Z.of_nat (length args) + 1) <= INT_MAX →
  let k := Z.of_nat (length (remove_dups (labels args))) in
  (∀ st, Generator.setup args = Ok st → V (Generator.g st) = k) ∧
  (∀ x, x ∈ labels args → k <= x → Generator.setup args = AssertFail) ∧
  (∀ k', (∀ x, x ∈ labels args ↔ 0 <= x < k') →
     k' = k ∧
     ∃ st, Generator.setup args = Ok st ∧
           wf_graph (Generator.g st) ∧
           V (Generator.g st) = k' ∧
           E (Generator.g st) = Z.of_nat (length args) ∧
           ∀ u v, is_edge (Generator.g st) u v = bool_decide ((u, v) ∈ args)).
Proof.
  intros Hne Hargc k. split_and!.
  - intros st Hst.
    destruct (decide (Forall (λ x, 0 <= x < k) (labels args))) as [Hr|Hr].
    + destruct (setup_ok args) as (st' & Hst' & _ & HV & _); [done..|].
      rewrite Hst' in Hst. by injection Hst as <-.
    + apply not_Forall_Exists, Exists_exists in Hr as (x & Hx & Hbad); [|apply _].
      rewrite (setup_fail args x) in Hst by done. discriminate.
  - intros x Hx Hk. apply (setup_fail args x); [done..|]. fold k. lia.
  - intros k' Hdense.
    assert (k' = k) as ->.
    { destruct args as [|a args]; [done|].
      assert (0 <= k') as Hk' by (specialize (Hdense a.1); unfold labels in Hdense;
        simpl in Hdense; rewrite elem_of_cons in Hdense; destruct Hdense as [Hd _];
        specialize (Hd (or_introl eq_refl)); lia).
      symmetry. apply dense_length; [done|apply NoDup_remove_dups|].
      intros x. by rewrite elem_of_remove_dups. }
    split; [done|].
    destruct (setup_ok args) as (st & Hst & Hwf & HV & HE & Hed & _); [done..| |by eauto 10].
    apply Forall_forall. intros x Hx. by apply Hdense.
Qed.

Lemma setup_needs_dense_labels_witness :
  Generator.setup [(0, 2)] = AssertFail ∧
  ∃ st, Generator.setup [(0, 1); (1, 2); (2, 0)] = Ok st ∧ V (Generator.g st) = 3.
Proof.
  split.
  - assert ([(0, 2)] ≠ []) as Hne by done.
    assert (2 * (Z.of_nat (length [(0, 2)]) + 1) <= INT_MAX) as Hargc by (vm_compute; discriminate).
    apply (proj1 (proj2 (setup_needs_dense_labels [(0, 2)] Hne Hargc)) 2).
    + vm_compute. set_solver.
    + vm_compute. discriminate.
  - assert ([(0, 1); (1, 2); (2, 0)] ≠ []) as Hne by done.
    assert (2 * (Z.of_nat (length [(0, 1); (1, 2); (2, 0)]) + 1) <= INT_MAX) as Hargc
      by (vm_compute; discriminate).
    destruct (proj2 (proj2 (setup_needs_dense_labels _ Hne Hargc)) 3) as (_ & st & Hst & _ & HV & _).
    + intros x. unfold labels. simpl. rewrite !elem_of_cons, elem_of_nil. lia.
    + by exists st.
Defined.

(** Every state [setup] returns satisfies the representation invariant. *)
Lemma setup_wf (args : list (Z * Z)) st :
  2 * (Z.of_nat (length args) + 1) <= INT_MAX →
  Generator.setup args = Ok st →
  wf_graph (Generator.g st) ∧ vertices_of (Generator.g st) (Generator.vertex_set st).
Proof.
  intros Hargc Hst.
  assert (args ≠ []) as Hne.
  { intros ->. unfold Generator.setup in Hst. by rewrite bool_decide_eq_true_2 in Hst. }
  destruct (decide (Forall (λ x, 0 <= x < Z.of_nat (length (remove_dups (labels args))))
                      (labels args))) as [Hr|Hr].
  - destruct (setup_ok args) as (st' & Hst' & Hwf & _ & _ & _ & Hvs & _); [done..|].
    rewrite Hst' in Hst. by injection Hst as <-.
  - apply not_Forall_Exists, Exists_exists in Hr as (x & Hx & Hbad); [|apply _].
    rewrite (setup_fail args x) in Hst by done. discriminate.
Qed.

Lemma cycle3_wf :
  wf_graph (Generator.g cycle3) ∧ vertices_of (Generator.g cycle3) (Generator.vertex_set cycle3).
Proof. apply (setup_wf cycle3_args); [vm_compute; discriminate|reflexivity]. Qed.

Lemma fan_wf :
  wf_graph (Generator.g fan) ∧ vertices_of (Generator.g fan) (Generator.vertex_set fan).
Proof. apply (setup_wf fan_args); [vm_compute; discriminate|reflexivity]. Qed.

Lemma path3_wf :
  wf_graph (Generator.g path3) ∧ vertices_of (Generator.g path3) (Generator.vertex_set path3).
Proof. apply (setup_wf path3_args); [vm_compute; discriminate|reflexivity]. Qed.

(** C5. On a well-formed graph, for a source and a target vertex, the
    linear scan and the sort-and-binary-search branch of [graph_has_edge]
    give the same answer whatever the out-degree, and so does
    [graph_has_edge] itself: true exactly when the target is among the
    stored successors of the source. *)
Theorem has_edge_paths_agree gr source target :
  wf_graph gr → 0 <= source < V gr → 0 <= target < V gr →
  ∃ s, alist gr !! Z.to_nat source = Some s ∧
       has_edge_linear s target = is_edge gr source target ∧
       (∃ s', has_edge_bsearch s target
                = Ok (is_edge gr source target, negb (is_sorted s), s')) ∧
       (∃ r, graph_has_edge gr source target = Ok r ∧
             he_found r = is_edge gr source target) ∧
       (is_edge gr source target = true ↔ target ∈ take (Z.to_nat (d s)) (succ s)).
Proof.
  intros Hwf Hs Ht. destruct (wf_graph_lookup gr source) as (s & Hl & Hws); [done..|].
  exists s. rewrite (is_edge_lookup gr source target s) by (lia || done).
  split_and!; [done|apply has_edge_linear_spec| | |apply bool_decide_eq_true].
  - destruct (has_edge_bsearch_spec (V gr) s target) as (s' & Heq & _); [apply Hwf|done..|].
    exists s'. by rewrite Heq, has_edge_linear_spec.
  - destruct (graph_has_edge_spec gr source target) as (r & Hr & Hf & _); [done..|].
    exists r. split; [done|]. by rewrite Hf, (is_edge_lookup gr source target s) by (lia || done).
Qed.

Lemma has_edge_paths_agree_witness :
  (∃ s, alist (Generator.g fan) !! Z.to_nat 0 = Some s ∧ d s = 15 ∧
        has_edge_linear s 7 = true ∧
        ∃ s', has_edge_bsearch s 7 = Ok (true, negb (is_sorted s), s')) ∧
  (∃ s, alist (Generator.g fan) !! Z.to_nat 1 = Some s ∧ d s = 14 ∧
        has_edge_linear s 1 = false ∧
        ∃ s', has_edge_bsearch s 1 = Ok (false, negb (is_sorted s), s')).
Proof.
  split.
  - destruct (has_edge_paths_agree (Generator.g fan) 0 7 (proj1 fan_wf))
      as (s & Hl & Hlin & Hbs & _); [by vm_compute..|].
    exists s. split; [done|]. vm_compute in Hl. injection Hl as <-.
    split; [reflexivity|]. split; [exact Hlin|exact Hbs].
  - destruct (has_edge_paths_agree (Generator.g fan) 1 1 (proj1 fan_wf))
      as (s & Hl & Hlin & Hbs & _); [by vm_compute..|].
    exists s. split; [done|]. vm_compute in Hl. injection Hl as <-.
    split; [reflexivity|]. split; [exact Hlin|exact Hbs].
Defined.

Lemma scan_spec gr vs best :
  wf_graph gr → vertices_of gr vs →
  ∃ gr' sr, Generator.scan gr vs best = Ok (gr', sr) ∧
            wf_graph gr' ∧ same_edges gr gr' ∧
            match sr with
            | Generator.ScanAborted => best <= Z.of_nat (length (back_edges gr vs))
            | Generator.ScanDone es k =>
                es = back_edges gr vs ∧ k = Z.of_nat (length (back_edges gr vs))
            end.
Proof.
  intros Hwf Hvs. unfold Generator.scan.
  destruct (scan_from_spec (seq 1 (length vs - 1)) gr vs best [] 0)
    as (gr' & sr & Heq & Hwf' & Hse & Hsr); [done|done|apply rows_lt|].
  exists gr', sr. split_and!; [done..|]. by destruct sr.
Qed.

Lemma scan_all_spec gr vs :
  wf_graph gr → vertices_of gr vs →
  ∃ gr', scan_all gr vs = Ok (gr', back_edges gr vs, Z.of_nat (length (back_edges gr vs))) ∧
         wf_graph gr' ∧ same_edges gr gr'.
Proof.
  intros Hwf Hvs. unfold scan_all.
  destruct (scan_all_from_spec (seq 1 (length vs - 1)) gr vs [] 0)
    as (gr' & Heq & Hwf' & Hse); [done|done|apply rows_lt|].
  by exists gr'.
Qed.

(** C6. The pruned scan and the exhaustive scan lead to the same locals,
    the same shared state and the same publication, for every graph,
    ordering and local best [b]; an abandoned scan means that the full
    back-edge count [k] is at least [b]. *)
Theorem early_abort_same_verdict gr vs b :
  wf_graph gr → vertices_of gr vs →
  ∃ g1 sr g2 es k,
    Generator.scan gr vs b = Ok (g1, sr) ∧
    scan_all gr vs = Ok (g2, es, k) ∧
    same_edges gr g1 ∧ same_edges gr g2 ∧
    (sr = Generator.ScanAborted → b <= k) ∧
    ∀ rets st sh, Generator.best_fb_size_l st = b →
      verdict (Generator.after_scan rets st sh sr)
      = verdict (Generator.after_scan rets st sh (Generator.ScanDone es k)).
Proof.
  intros Hwf Hvs.
  destruct (scan_spec gr vs b) as (g1 & sr & Hs & _ & Hse1 & Hsr); [done..|].
  destruct (scan_all_spec gr vs) as (g2 & Ha & _ & Hse2); [done..|].
  exists g1, sr, g2, (back_edges gr vs), (Z.of_nat (length (back_edges gr vs))).
  split_and!; [done..| |].
  - by intros ->.
  - intros rets st sh Hb. destruct sr as [|es k].
    + cbn. rewrite Hb. by destruct (Z.ltb_spec (Z.of_nat (length (back_edges gr vs))) b); [lia|].
    + by destruct Hsr as [-> ->].
Qed.

Lemma early_abort_same_verdict_witness :
  ∃ g1 g2 es,
    Generator.scan (Generator.g cycle3) [0; 1; 2] 1 = Ok (g1, Generator.ScanAborted) ∧
    scan_all (Generator.g cycle3) [0; 1; 2] = Ok (g2, es, 1).
Proof.
  destruct (early_abort_same_verdict (Generator.g cycle3) [0; 1; 2] 1 (proj1 cycle3_wf))
    as (g1 & sr & g2 & es & k & Hs & Ha & _); [by vm_compute; repeat constructor|].
  exists g1, g2, es. vm_compute in Hs. injection Hs as <- <-.
  vm_compute in Ha. injection Ha as <- <- <-. split; reflexivity.
Defined.

(** C7. The pair scan returns; when it runs to its end, the edges it
    collected are exactly the edges whose source stands after its target
    in the ordering, so that no edge left after their removal points
    backwards. The exhaustive scan always runs to its end. *)
Theorem scan_back_edges_consistent gr vs b :
  wf_graph gr → vertices_of gr vs →
  (∃ g1 sr, Generator.scan gr vs b = Ok (g1, sr) ∧
     ∀ es k, sr = Generator.ScanDone es k →
       k = Z.of_nat (length es) ∧ collects_back_edges gr vs es ∧
       residual_consistent gr vs es) ∧
  (∃ g2 es, scan_all gr vs = Ok (g2, es, Z.of_nat (length es)) ∧
     collects_back_edges gr vs es ∧ residual_consistent gr vs es).
Proof.
  intros Hwf Hvs.
  assert (collects_back_edges gr vs (back_edges gr vs)) as Hc
    by (intros u v; apply elem_of_back_edges).
  assert (residual_consistent gr vs (back_edges gr vs)) as Hres.
  { intros u v [He Hn] Ha. apply Hn, Hc. done. }
  split.
  - destruct (scan_spec gr vs b) as (g1 & sr & Hs & _ & _ & Hsr); [done..|].
    exists g1, sr. split; [done|]. intros es k ->. by destruct Hsr as [-> ->].
  - destruct (scan_all_spec gr vs) as (g2 & Ha & _); [done..|]. by exists g2, (back_edges gr vs).
Qed.

Lemma scan_back_edges_consistent_witness :
  ∃ g1, Generator.scan (Generator.g cycle3) [0; 1; 2] 2
          = Ok (g1, Generator.ScanDone [mk_Edge 2 0] 1) ∧
        residual_consistent (Generator.g cycle3) [0; 1; 2] [mk_Edge 2 0].
Proof.
  destruct (scan_back_edges_consistent (Generator.g cycle3) [0; 1; 2] 2 (proj1 cycle3_wf))
    as [(g1 & sr & Hs & Hdone) _]; [by vm_compute; repeat constructor|].
  exists g1. vm_compute in Hs. injection Hs as <- <-.
  split; [reflexivity|]. by destruct (Hdone [mk_Edge 2 0] 1 eq_refl) as (_ & _ & Hres).
Defined.

Lemma find_slot_ok fuel busy slots pos p :
  find_slot fuel busy slots pos = Ok p →
  ∃ s, slots !! Z.to_nat p = Some s ∧ written s ≠ busy.
Proof.
  revert pos. induction fuel as [|fuel IH]; intros pos; cbn [find_slot];
    destruct (slots !! Z.to_nat pos) as [s|] eqn:Hs; try done;
    case_bool_decide; try done.
  - intros [= <-]. eauto.
  - apply IH.
  - intros [= <-]. eauto.
Qed.

Lemma find_slot_here fuel busy slots pos s :
  slots !! Z.to_nat pos = Some s → written s ≠ busy → find_slot fuel busy slots pos = Ok pos.
Proof.
  intros Hs Hw. destruct fuel; cbn [find_slot]; rewrite Hs; by rewrite bool_decide_eq_false_2.
Qed.

(** What a pass through the generator's loop body can change in the shared
    block: the slots only. *)
Lemma after_scan_shared rets st sh sr st' sh' a :
  Generator.after_scan rets st sh sr = Ok (st', sh', a) →
  acyclic (ring_buf sh') = acyclic (ring_buf sh) ∧
  quit (ring_buf sh') = quit (ring_buf sh) ∧
  best_fb_size (ring_buf sh') = best_fb_size (ring_buf sh).
Proof.
  unfold Generator.after_scan. intros H.
  destruct sr as [|es k]; [by injection H as <- <- <-|].
  destruct (_ && _); [|by injection H as <- <- <-].
  destruct (_ <? k); [by injection H as <- <- <-|].
  res_inv. by injection H as <- <- <-.
Qed.

Lemma iteration_shared rets vs st sh st' sh' a :
  Generator.iteration rets vs st sh = Ok (st', sh', a) →
  acyclic (ring_buf sh') = acyclic (ring_buf sh) ∧
  quit (ring_buf sh') = quit (ring_buf sh) ∧
  best_fb_size (ring_buf sh') = best_fb_size (ring_buf sh).
Proof.
  unfold Generator.iteration. intros H.
  destruct (Generator.scan _ _ _) as [[g' sr]| | | | |] eqn:Hs; try discriminate H.
  by apply after_scan_shared in H.
Qed.

(** C1, on the code. For a candidate that improves on the local best and
    has at most [MAX_VIABLE_COUNT] edges: when the shared best is strictly
    smaller than the candidate, nothing is published and the shared value
    becomes the local best; when the shared best is equal or larger, the
    worker goes on to publish the candidate, and does publish it when the
    semaphore calls succeed and the slot under its cursor is free. *)
Theorem publish_guard_is_strict rets st sh es k :
  k < Generator.best_fb_size_l st → k <= MAX_VIABLE_COUNT →
  (best_fb_size (ring_buf sh) < k →
     Generator.after_scan rets st sh (Generator.ScanDone es k)
     = Ok (with_best st (best_fb_size (ring_buf sh)), sh, Generator.Adopted)) ∧
  (k <= best_fb_size (ring_buf sh) →
     (∀ st' sh' a,
        Generator.after_scan rets st sh (Generator.ScanDone es k) = Ok (st', sh', a) →
        ∃ slot, a = Generator.Published slot (Generator.build_fb_arc_set es k) ∧
                Generator.best_fb_size_l st' = k ∧
                sets (ring_buf sh') !! Z.to_nat slot = Some (Generator.build_fb_arc_set es k)) ∧
     (rets = all_ok → 0 < excl_sem sh → 0 < free_sem sh →
      (∃ s, sets (ring_buf sh) !! Z.to_nat (Generator.write_at st) = Some s ∧
            written s = false) →
      ∃ st' sh',
        Generator.after_scan rets st sh (Generator.ScanDone es k)
        = Ok (st', sh', Generator.Published (Generator.write_at st)
                          (Generator.build_fb_arc_set es k)))).
Proof.
  intros Hk H8. unfold Generator.after_scan.
  destruct (Z.ltb_spec k (Generator.best_fb_size_l st)); [|lia].
  destruct (Z.leb_spec k MAX_VIABLE_COUNT); [|lia]. cbn [andb].
  split; [|split].
  - intros Hlt. by destruct (Z.ltb_spec (best_fb_size (ring_buf sh)) k); [|lia].
  - destruct (Z.ltb_spec (best_fb_size (ring_buf sh)) k); [lia|].
    intros st' sh' a Ha. res_inv.
    match goal with
    | Hf : find_slot _ _ _ _ = Ok _ |- _ => apply find_slot_ok in Hf as (s & Hs & _)
    end.
    injection Ha as <- <- <-. eexists. split; [done|]. split.
    + by destruct (_ && _).
    + cbn. apply list_lookup_insert_eq. by apply lookup_lt_Some in Hs.
  - destruct (Z.ltb_spec (best_fb_size (ring_buf sh)) k); [lia|].
    intros -> Hexcl Hfree (s & Hs & Hw). cbn -[find_slot].
    destruct (Z.ltb_spec 0 (excl_sem sh)); [|lia].
    destruct (Z.ltb_spec 0 (free_sem sh)); [|lia]. cbn -[find_slot].
    rewrite (find_slot_here _ _ _ _ s) by (done || by rewrite Hw). cbn. eauto.
Qed.

Lemma publish_guard_is_strict_witness :
  Generator.after_scan all_ok cycle3 (shared_with_best 0) (Generator.ScanDone [mk_Edge 2 0] 1)
  = Ok (with_best cycle3 0, shared_with_best 0, Generator.Adopted) ∧
  ∃ st' sh',
    Generator.after_scan all_ok cycle3 (shared_with_best 1) (Generator.ScanDone [mk_Edge 2 0] 1)
    = Ok (st', sh', Generator.Published 0 (Generator.build_fb_arc_set [mk_Edge 2 0] 1)).
Proof.
  assert (1 < Generator.best_fb_size_l cycle3) as Hk by (by vm_compute).
  assert (1 <= MAX_VIABLE_COUNT) as H8 by (vm_compute; discriminate).
  split.
  - apply (proj1 (publish_guard_is_strict all_ok cycle3 (shared_with_best 0)
                    [mk_Edge 2 0] 1 Hk H8)).
    by vm_compute.
  - apply (proj2 (publish_guard_is_strict all_ok cycle3 (shared_with_best 1)
                    [mk_Edge 2 0] 1 Hk H8)).
    + vm_compute. discriminate.
    + reflexivity.
    + by vm_compute.
    + by vm_compute.
    + eexists. split; [by vm_compute|reflexivity].
Defined.

(** C1 as stated fails: a candidate of the size of the shared best is
    published. The 3-cycle, ordering 0 1 2, local best 2, shared best 1:
    the scan finds the one back-edge 2-0, and the worker writes it to
    slot 0. *)
Lemma equal_size_candidate_is_published :
  best_fb_size (ring_buf (shared_with_best 1)) = 1 ∧
  Generator.best_fb_size_l cycle3 = 2 ∧
  ∃ st' sh' fb,
    Generator.iteration all_ok [0; 1; 2] cycle3 (shared_with_best 1)
    = Ok (st', sh', Generator.Published 0 fb) ∧
    num_e fb = 1 ∧ take 1 (edges fb) = [mk_Edge 2 0] ∧
    sets (ring_buf sh') !! 0%nat = Some fb ∧ used_sem sh' = 1.
Proof.
  split; [reflexivity|]. split; [reflexivity|].
  vm_compute. do 3 eexists. split; [reflexivity|]. by vm_compute.
Qed.

(** C3, on the code. A worker that has published a zero-edge candidate and
    reads the shared best as zero sets its own [quit]; the shared stop
    flag and the shared acyclic flag are left as they were. *)
Theorem worker_stop_is_local rets st sh es st' sh' slot fb :
  Generator.after_scan rets st sh (Generator.ScanDone es 0)
  = Ok (st', sh', Generator.Published slot fb) →
  best_fb_size (ring_buf sh') = 0 →
  Generator.quit_l st' = 1 ∧
  quit (ring_buf sh') = quit (ring_buf sh) ∧
  acyclic (ring_buf sh') = acyclic (ring_buf sh).
Proof.
  intros H Hbest. pose proof (after_scan_shared _ _ _ _ _ _ _ H) as (Hac & Hq & Hb).
  split; [|done]. unfold Generator.after_scan in H.
  destruct (_ && _); [|discriminate H]. destruct (_ <? 0); [discriminate H|].
  res_inv. cbn in H. rewrite <- Hb, Hbest in H. cbn in H. by injection H as <- <- <- <-.
Qed.

Lemma worker_stop_is_local_witness :
  ∃ st' sh' fb,
    Generator.after_scan all_ok path3 (shared_with_best 0) (Generator.ScanDone [] 0)
    = Ok (st', sh', Generator.Published 0 fb) ∧
    Generator.quit_l st' = 1 ∧ quit (ring_buf sh') = 0.
Proof.
  eexists _, _, _. split; [by vm_compute|].
  refine (let H := worker_stop_is_local all_ok path3 (shared_with_best 0) [] _ _ _ _ eq_refl eq_refl
          in conj (proj1 H) (proj1 (proj2 H))).
Defined.

(** C3 as stated fails: the shared stop flag stays clear. The path 0-1,
    1-2, ordering 0 1 2, local best 1, shared best 0: the worker publishes
    the zero-edge candidate and sets its own [quit]; [ring_buf->quit] is
    still 0, and another worker and the supervisor keep running. *)
Lemma worker_stop_not_shared :
  ∃ st' sh' fb,
    Generator.iteration all_ok [0; 1; 2] path3 (shared_with_best 0)
    = Ok (st', sh', Generator.Published 0 fb) ∧
    num_e fb = 0 ∧ best_fb_size (ring_buf sh') = 0 ∧
    Generator.quit_l st' = 1 ∧ quit (ring_buf sh') = 0 ∧ acyclic (ring_buf sh') = false ∧
    Generator.running cycle3 sh' = true ∧
    Supervisor.running Supervisor.setup.1 = true.
Proof. vm_compute. do 3 eexists. split; [reflexivity|]. by vm_compute. Qed.

(** C2, evaluation of the code. A [sem_wait] interrupted by a signal makes
    [wait_sem] return with the semaphore as it was; the wait is not
    issued again. With the exclusion semaphore held by another worker
    (value 0), a worker whose wait is interrupted goes on, writes its
    candidate and posts the semaphore. Every other failure of a wait, and
    every failure of a post, ends the process. *)
Theorem wait_sem_eintr_returns :
  (∀ sem, wait_sem (SemErr EINTR) sem = Ok sem) ∧
  (∀ errno sem, errno ≠ EINTR → wait_sem (SemErr errno) sem = ExitFailure) ∧
  (∀ errno sem, post_sem (SemErr errno) sem = ExitFailure) ∧
  let rets := {| Generator.wait_excl := SemErr EINTR; Generator.wait_free := SemOk;
                 Generator.post_used := SemOk; Generator.post_excl := SemOk |} in
  let sh := {| ring_buf := ring_buf (shared_with_best 1); excl_sem := 0;
               used_sem := 0; free_sem := BUF_SIZE |} in
  ∃ st' sh' fb,
    Generator.iteration rets [0; 1; 2] cycle3 sh = Ok (st', sh', Generator.Published 0 fb) ∧
    excl_sem sh' = 1.
Proof.
  split_and!.
  - done.
  - intros errno sem Hne. unfold wait_sem. by destruct (Z.eqb_spec errno EINTR).
  - done.
  - vm_compute. do 3 eexists. split; reflexivity.
Qed.

(** C4, evaluation of the code. Vertex 0 of the fan graph has 15
    successors. A query sorts them; the flag [is_sorted] is still false
    afterwards, and the next query on the same vertex sorts again. *)
Theorem has_edge_sorts_again :
  graph_out_degree (Generator.g fan) 0 = Ok 15 ∧
  ∃ r1 r2 s1,
    graph_has_edge (Generator.g fan) 0 7 = Ok r1 ∧ he_qsort r1 = true ∧
    alist (he_graph r1) !! 0%nat = Some s1 ∧
    StronglySorted Z.le (succ s1) ∧ is_sorted s1 = false ∧
    graph_has_edge (he_graph r1) 0 7 = Ok r2 ∧ he_qsort r2 = true.
Proof.
  split; [reflexivity|]. do 3 eexists.
  split; [by vm_compute|]. split; [reflexivity|]. split; [reflexivity|].
  split; [|split; [reflexivity|split; [by vm_compute|reflexivity]]].
  cbn. repeat (apply StronglySorted_cons; split; [repeat constructor; by vm_compute|]).
  constructor.
Qed.

(** What the supervisor does with the candidate it drains. *)
Lemma supervisor_iteration_spec rets st sh st' sh' ev :
  Supervisor.iteration rets st sh = Ok (st', sh', ev) →
  ∃ fb, fb ∈ sets (ring_buf sh) ∧
    match ev with
    | Supervisor.Solution n es =>
        n = num_e fb ∧ n ≠ 0 ∧ n < best_fb_size (ring_buf sh) ∧
        best_fb_size (ring_buf sh') = n ∧ es = take (Z.to_nat n) (edges fb)
    | Supervisor.GraphIsAcyclic =>
        num_e fb = 0 ∧ best_fb_size (ring_buf sh') = best_fb_size (ring_buf sh) ∧
        acyclic (ring_buf sh') = true ∧ quit (ring_buf sh') = 1 ∧
        Supervisor.quit_l st' = 1
    | Supervisor.Silent =>
        num_e fb ≠ 0 ∧ best_fb_size (ring_buf sh) <= num_e fb ∧
        best_fb_size (ring_buf sh') = best_fb_size (ring_buf sh)
    end.
Proof.
  unfold Supervisor.iteration. intros H. res_inv.
  destruct (sets (ring_buf sh) !! _) as [fb|] eqn:Hfb; [|discriminate H].
  res_inv. exists fb. split; [by eapply list_elem_of_lookup_2|].
  destruct (Z.eqb_spec (num_e fb) 0) as [H0|H0].
  - cbn in H. by injection H as <- <- <-.
  - cbn [set_sets best_fb_size] in H.
    destruct (Z.ltb_spec (num_e fb) (best_fb_size (ring_buf sh))) as [Hlt|Hge];
      injection H as <- <- <-; cbn; done.
Qed.

Lemma sys_step_best sh sh' :
  sys_step sh sh' → best_fb_size (ring_buf sh') <= best_fb_size (ring_buf sh).
Proof.
  destruct 1 as [rets st sh st' sh' ev H|st sh st' rb' H|rets vs st sh st' sh' a H].
  - apply supervisor_iteration_spec in H as (fb & _ & H).
    destruct ev; [lia|lia|]. destruct H as (-> & _ & ? & -> & _). lia.
  - injection H as <- <-. cbn. lia.
  - apply iteration_shared in H as (_ & _ & ->). lia.
Qed.

(** C8. [best_fb_size] is [INT16_MAX] when the supervisor enters its loop;
    no step of the system increases it; a generator never changes it; and
    the supervisor prints a solution only for a drained candidate with
    fewer edges than the current best, which then becomes the best, while
    a zero-edge candidate yields the acyclic message and no edge list. *)
Theorem best_fb_size_only_decreases :
  best_fb_size (ring_buf Supervisor.setup.2) = INT16_MAX ∧
  (∀ sh sh', rtc sys_step sh sh' →
     best_fb_size (ring_buf sh') <= best_fb_size (ring_buf sh)) ∧
  (∀ rets vs st sh st' sh' a,
     Generator.iteration rets vs st sh = Ok (st', sh', a) →
     best_fb_size (ring_buf sh') = best_fb_size (ring_buf sh)) ∧
  (∀ rets st sh st' sh' ev,
     Supervisor.iteration rets st sh = Ok (st', sh', ev) →
     ∃ fb, fb ∈ sets (ring_buf sh) ∧
       match ev with
       | Supervisor.Solution n es =>
           n = num_e fb ∧ n ≠ 0 ∧ n < best_fb_size (ring_buf sh) ∧
           best_fb_size (ring_buf sh') = n ∧ es = take (Z.to_nat n) (edges fb)
       | Supervisor.GraphIsAcyclic =>
           num_e fb = 0 ∧ best_fb_size (ring_buf sh') = best_fb_size (ring_buf sh) ∧
           acyclic (ring_buf sh') = true ∧ quit (ring_buf sh') = 1 ∧
           Supervisor.quit_l st' = 1
       | Supervisor.Silent =>
           num_e fb ≠ 0 ∧ best_fb_size (ring_buf sh) <= num_e fb ∧
           best_fb_size (ring_buf sh') = best_fb_size (ring_buf sh)
       end).
Proof.
  split_and!.
  - reflexivity.
  - induction 1 as [|sh1 sh2 sh3 Hstep _ IH]; [lia|].
    apply sys_step_best in Hstep. lia.
  - intros rets vs st sh st' sh' a H. by apply iteration_shared in H as (_ & _ & ->).
  - apply supervisor_iteration_spec.
Qed.

Lemma best_fb_size_only_decreases_witness :
  ∃ st sh fb st' sh',
    Generator.iteration all_ok [0; 1; 2] cycle3 Supervisor.setup.2
    = Ok (st, sh, Generator.Published 0 fb) ∧
    Supervisor.iteration sup_ok Supervisor.setup.1 sh
    = Ok (st', sh', Supervisor.Solution 1 [mk_Edge 2 0]) ∧
    1 < best_fb_size (ring_buf sh) ∧ best_fb_size (ring_buf sh') = 1.
Proof.
  eexists _, _, _, _, _. split; [by vm_compute|].
  match goal with
  | |- ?it = Ok (?st', ?sh', ?ev) ∧ _ =>
      assert (it = Ok (st', sh', ev)) as Hit by (by vm_compute)
  end.
  split; [exact Hit|].
  destruct (proj2 (proj2 (proj2 best_fb_size_only_decreases)) _ _ _ _ _ _ Hit)
    as (fb & _ & _ & _ & Hlt & Hbest & _).
  split; [exact Hlt|exact Hbest].
Defined.

(** Rounding up to an alignment. *)
Lemma align_up_ge x a : 1 <= a → x <= align_up x a.
Proof.
  intros Ha. unfold align_up.
  pose proof (Z.div_mod (x + a - 1) a ltac:(lia)) as Hdm.
  pose proof (Z.mod_pos_bound (x + a - 1) a ltac:(lia)) as Hm. nia.
Qed.

Lemma align_up_ge_align x a : 1 <= a → 1 <= x → a <= align_up x a.
Proof.
  intros Ha Hx. unfold align_up.
  assert (1 <= (x + a - 1) `div` a) by (apply Z.div_le_lower_bound; lia). nia.
Qed.

Lemma struct_align_ge_1 members : 1 <= struct_align members.
Proof. unfold struct_align. induction members as [|m ms IH]; cbn [foldr]; lia. Qed.

(** C9. The supervisor truncates the shared memory object to [BUF_SIZE] =
    8 bytes and maps [sizeof(Buffer)] bytes of it, and a generator maps
    [sizeof(Buffer)] bytes of that object as well. On every platform whose
    [int] has at least four bytes and is aligned to at least four, the
    mapped length exceeds the length of the object, and the slot array
    [sets] starts at or after byte 8, outside the object's extent. *)
Theorem shm_object_shorter_than_buffer (a : abi) (named : option shm_object) :
  1 <= size_bool a → 1 <= align_bool a →
  1 <= size_sig_atomic_t a → 1 <= align_sig_atomic_t a →
  4 <= size_int a → 4 <= align_int a →
  ∃ m, supervisor_shm a true true true named = Ok m ∧
       shm_length (map_object m) = BUF_SIZE ∧
       map_length m = sizeof_Buffer a ∧
       shm_length (map_object m) < map_length m ∧
       shm_length (map_object m) <= offsetof_sets a ∧
       ∃ m', generator_shm a true true (Some (map_object m)) = Ok m' ∧
             map_object m' = map_object m ∧ map_length m' = sizeof_Buffer a.
Proof.
  intros Hsb Hab Hss Has Hsi Hai.
  eexists. split; [reflexivity|]. cbn [map_object map_length shm_length].
  assert (BUF_SIZE <= offsetof_sets a) as Hoff.
  { unfold offsetof_sets, offset_of, Buffer_members. cbn [lookup list_lookup take members_end].
    cbn [c_size c_align bool_t int_t sig_atomic_t array_type].
    pose proof (struct_align_ge_1 [bool_t a; int_t a; array_type MAX_VIABLE_COUNT (Edge_t a)]) as H1.
    cbn [Fb_arc_set_t struct_type c_align].
    etrans; [|apply align_up_ge; exact H1].
    pose proof (align_up_ge 0 (align_bool a) Hab).
    pose proof (align_up_ge (align_up 0 (align_bool a) + size_bool a) (align_sig_atomic_t a) Has).
    pose proof (align_up_ge_align
                  (align_up (align_up 0 (align_bool a) + size_bool a) (align_sig_atomic_t a)
                   + size_sig_atomic_t a) (align_int a) ltac:(lia) ltac:(lia)).
    unfold BUF_SIZE. lia. }
  assert (1 <= c_size (Fb_arc_set_t a)) as Hfb.
  { unfold Fb_arc_set_t, struct_type. cbn [c_size].
    etrans; [|apply align_up_ge, struct_align_ge_1].
    cbn [members_end]. cbn [c_size c_align bool_t int_t array_type].
    assert (0 <= c_size (Edge_t a)).
    { unfold Edge_t, struct_type. cbn [c_size].
      etrans; [|apply align_up_ge, struct_align_ge_1].
      cbn [members_end c_size c_align int_t].
      pose proof (align_up_ge 0 (align_int a) ltac:(lia)).
      pose proof (align_up_ge (align_up 0 (align_int a) + size_int a) (align_int a) ltac:(lia)).
      lia. }
    pose proof (align_up_ge 0 (align_bool a) Hab).
    pose proof (align_up_ge (align_up 0 (align_bool a) + size_bool a) (align_int a) ltac:(lia)).
    pose proof (align_up_ge (align_up (align_up 0 (align_bool a) + size_bool a) (align_int a)
                             + size_int a)
                  (c_align (Edge_t a)) (struct_align_ge_1 _)).
    unfold MAX_VIABLE_COUNT. lia. }
  assert (offsetof_sets a + BUF_SIZE * c_size (Fb_arc_set_t a) <= sizeof_Buffer a) as Hsz.
  { unfold sizeof_Buffer, Buffer_t, struct_type. cbn [c_size].
    etrans; [|apply align_up_ge, struct_align_ge_1].
    unfold offsetof_sets, offset_of, Buffer_members.
    cbn [lookup list_lookup take members_end].
    cbn [c_size c_align array_type]. lia. }
  split; [reflexivity|]. split; [reflexivity|].
  split; [unfold BUF_SIZE in *; lia|]. split; [exact Hoff|].
  eexists. split; [reflexivity|]. split; reflexivity.
Qed.

Lemma shm_object_shorter_than_buffer_witness :
  ∃ m, supervisor_shm sysv_abi true true true None = Ok m ∧
       shm_length (map_object m) = 8 ∧ map_length m = 588 ∧ offsetof_sets sysv_abi = 12.
Proof.
  destruct (shm_object_shorter_than_buffer sysv_abi None) as (m & Hm & Hlen & Hmap & _);
    [by vm_compute..|].
  exists m. split; [exact Hm|]. split; [exact Hlen|]. split; [|reflexivity].
  rewrite Hmap. reflexivity.
Defined.

(** ** Further properties of the code *)

(** X1. [cmpfunc] on two [int]s: zero exactly for equal arguments; the
    exact difference when that fits an [int]; and the wrong sign when the
    difference overflows. *)
Theorem cmpfunc_sign a b :
  INT_MIN <= a <= INT_MAX → INT_MIN <= b <= INT_MAX →
  (cmpfunc a b = 0 ↔ a = b) ∧
  (INT_MIN <= a - b <= INT_MAX → cmpfunc a b = a - b) ∧
  (INT_MAX < a - b → cmpfunc a b < 0) ∧
  (a - b < INT_MIN → 0 < cmpfunc a b).
Proof.
  unfold INT_MIN, INT_MAX, cmpfunc, wrap_int. intros Ha Hb.
  assert (a - b + 2147483648 = 0 * 4294967296 + (a - b + 2147483648) ∨
          a - b + 2147483648 = 1 * 4294967296 + (a - b + 2147483648 - 4294967296) ∨
          a - b + 2147483648 = (-1) * 4294967296 + (a - b + 2147483648 + 4294967296))
    as Hcases by lia.
  destruct (decide (0 <= a - b + 2147483648 < 4294967296)) as [Hin|Hout].
  - rewrite Z.mod_small by lia. lia.
  - destruct (decide (4294967296 <= a - b + 2147483648)).
    + replace (a - b + 2147483648) with (a - b + 2147483648 - 4294967296 + 1 * 4294967296) by lia.
      rewrite Z.mod_add, Z.mod_small by lia. lia.
    + replace (a - b + 2147483648) with (a - b + 2147483648 + 4294967296 + (-1) * 4294967296) by lia.
      rewrite Z.mod_add, Z.mod_small by lia. lia.
Qed.

Lemma cmpfunc_sign_witness :
  cmpfunc 3 3 = 0 ∧ cmpfunc 2 5 = -3 ∧ cmpfunc INT_MAX (-1) < 0 ∧ 0 < cmpfunc INT_MIN 1.
Proof.
  assert (∀ x, x = 3 ∨ x = 2 ∨ x = 5 ∨ x = INT_MAX ∨ x = -1 ∨ x = INT_MIN ∨ x = 1 →
               INT_MIN <= x <= INT_MAX) as Hr
    by (unfold INT_MIN, INT_MAX; intros x; lia).
  split; [apply (cmpfunc_sign 3 3); [apply Hr; lia..|done]|].
  split; [apply (cmpfunc_sign 2 5); [apply Hr; lia..|unfold INT_MIN, INT_MAX; lia]|].
  split; [apply (cmpfunc_sign INT_MAX (-1)); [apply Hr; lia..|unfold INT_MAX; lia]|].
  apply (cmpfunc_sign INT_MIN 1); [apply Hr; lia..|unfold INT_MIN; lia].
Defined.

Lemma graph_out_degree_range gr u :
  ¬ (0 <= u < V gr) → graph_out_degree gr u = AssertFail.
Proof.
  intros Hu. unfold graph_out_degree, assert.
  destruct (Z.leb_spec 0 u); [|done]. destruct (Z.ltb_spec u (V gr)); [lia|done].
Qed.

Lemma graph_has_edge_range gr u v :
  ¬ (0 <= u < V gr) → graph_has_edge gr u v = AssertFail.
Proof. intros Hu. unfold graph_has_edge. by rewrite graph_out_degree_range. Qed.

(** X2. A graph fresh from [graph_create]: [n] vertices, no edge, every
    vertex of out-degree 0, every edge query answered with false and
    leaving the graph as it is; a vertex outside [0, n) trips the
    assertion of [graph_out_degree], also inside [graph_has_edge]. *)
Theorem graph_create_is_empty n u v :
  graph_vertex_count (graph_create n) = n ∧
  graph_edge_count (graph_create n) = 0 ∧
  (0 <= u < n →
     graph_out_degree (graph_create n) u = Ok 0 ∧
     graph_has_edge (graph_create n) u v
     = Ok {| he_found := false; he_qsort := false; he_graph := graph_create n |}) ∧
  (¬ (0 <= u < n) →
     graph_out_degree (graph_create n) u = AssertFail ∧
     graph_has_edge (graph_create n) u v = AssertFail).
Proof.
  split; [done|]. split; [done|]. split.
  - intros Hu.
    assert (alist (graph_create n) !! Z.to_nat u
            = Some {| d := 0; len := 1; is_sorted := true; succ := [] |}) as Hl.
    { cbn. apply lookup_replicate_2. lia. }
    assert (graph_out_degree (graph_create n) u = Ok 0) as Hd.
    { by rewrite (graph_out_degree_ok (graph_create n) u _ Hu Hl). }
    split; [done|]. unfold graph_has_edge. rewrite Hd. cbn [mbind res_mbind res_bind].
    by rewrite Hl.
  - intros Hu. split; [by apply graph_out_degree_range|by apply graph_has_edge_range].
Qed.

Lemma graph_create_is_empty_witness :
  graph_out_degree (graph_create 3) 2 = Ok 0 ∧
  graph_has_edge (graph_create 3) 3 0 = AssertFail.
Proof.
  split.
  - apply (graph_create_is_empty 3 2 0). lia.
  - apply (graph_create_is_empty 3 3 0). lia.
Defined.

(** X3. An edge added by [graph_add_edge] is found by [graph_has_edge];
    the answer for every other pair of vertices is what it was; the edge
    count grows by one and the vertex count stays. *)
Theorem add_edge_then_has_edge gr u v :
  wf_graph gr → 0 <= u < V gr → 0 <= v < V gr →
  ∃ gr', graph_add_edge gr u v = Ok gr' ∧
    graph_edge_count gr' = graph_edge_count gr + 1 ∧
    graph_vertex_count gr' = graph_vertex_count gr ∧
    (∃ r, graph_has_edge gr' u v = Ok r ∧ he_found r = true) ∧
    ∀ a b, 0 <= a < V gr → 0 <= b < V gr → (a, b) ≠ (u, v) →
      ∃ r r', graph_has_edge gr' a b = Ok r' ∧ graph_has_edge gr a b = Ok r ∧
              he_found r' = he_found r.
Proof.
  intros Hwf Hu Hv.
  destruct (graph_add_edge_ok gr u v) as (gr' & Hadd & Hwf' & HV & HE & Hed); [done..|].
  exists gr'. split_and!; [done..| |].
  - destruct (graph_has_edge_spec gr' u v) as (r & Hr & Hf & _); [done|lia|lia|].
    exists r. split; [done|]. rewrite Hf, Hed, !Z.eqb_refl. by rewrite orb_true_r.
  - intros a b Ha Hb Hne.
    destruct (graph_has_edge_spec gr' a b) as (r' & Hr' & Hf' & _); [done|lia|lia|].
    destruct (graph_has_edge_spec gr a b) as (r & Hr & Hf & _); [done..|].
    exists r, r'. split_and!; [done..|]. rewrite Hf', Hf, Hed.
    destruct (Z.eqb_spec a u) as [->|?], (Z.eqb_spec b v) as [->|?];
      try done; by rewrite orb_false_r.
Qed.

Lemma add_edge_then_has_edge_witness :
  ∃ gr', graph_add_edge (graph_create 2) 0 1 = Ok gr' ∧
         ∃ r, graph_has_edge gr' 0 1 = Ok r ∧ he_found r = true.
Proof.
  destruct (add_edge_then_has_edge (graph_create 2) 0 1) as (gr' & Hadd & _ & _ & Hr & _).
  - apply graph_create_wf. by vm_compute.
  - by vm_compute.
  - by vm_compute.
  - by exists gr'.
Defined.

Lemma grow_len_spec fuel dd ll l' :
  grow_len fuel dd ll = Ok l' → dd < l' ∧ (dd < ll → l' = ll).
Proof.
  revert ll. induction fuel as [|fuel IH]; intros ll; cbn [grow_len];
    destruct (Z.leb_spec ll dd); try done.
  - intros [= <-]. lia.
  - intros Hg%IH. lia.
  - intros [= <-]. lia.
Qed.

Lemma grow_len_double fuel dd ll :
  1 <= ll → dd = ll → grow_len (S fuel) dd ll = Ok (2 * ll).
Proof.
  intros Hl ->. cbn [grow_len]. destruct (Z.leb_spec ll ll); [|lia].
  destruct fuel; cbn [grow_len]; destruct (Z.leb_spec (ll * 2) ll); try lia; f_equal; lia.
Qed.

(** X4. [graph_add_edge] keeps every successor array within its
    allocation: the new entry is written below the capacity [len], which
    stays as it is while there is room and is doubled when the array is
    full; the out-degree of the source grows by one and no other
    out-degree changes. *)
Theorem add_edge_within_capacity gr u v :
  wf_graph gr → within_capacity gr → 0 <= u < V gr → 0 <= v < V gr →
  ∃ gr' s s',
    graph_add_edge gr u v = Ok gr' ∧ within_capacity gr' ∧
    alist gr !! Z.to_nat u = Some s ∧ alist gr' !! Z.to_nat u = Some s' ∧
    d s < len s' ∧ len s' = (if d s <? len s then len s else 2 * len s) ∧
    ∀ a, 0 <= a < V gr →
      ∃ k, graph_out_degree gr a = Ok k ∧
           graph_out_degree gr' a = Ok (if bool_decide (a = u) then k + 1 else k).
Proof.
  intros Hwf Hcap Hu Hv. destruct (wf_graph_lookup gr u) as (s & Hl & Hws); [done..|].
  pose proof Hwf as [HV Hal Hsu]. pose proof Hws as [Hd Hlen Hr Hsrt].
  assert (d s <= len s) as Hds.
  { unfold within_capacity in Hcap. rewrite Forall_lookup in Hcap. eauto. }
  unfold graph_add_edge. rewrite !assert_true by lia. cbn -[grow_len]. rewrite Hl.
  assert (∃ l', grow_len (S (Z.to_nat (d s))) (d s) (len s) = Ok l' ∧ d s < l' ∧
                l' = (if d s <? len s then len s else 2 * len s)) as (l' & Hg & Hlt & Hl').
  { destruct (Z.ltb_spec (d s) (len s)) as [Hroom|Hfull].
    - destruct (grow_len_ok (S (Z.to_nat (d s))) (d s) (len s)) as (l' & Hg & _); [lia..|].
      exists l'. split; [done|]. apply grow_len_spec in Hg. lia.
    - exists (2 * len s). rewrite grow_len_double by lia. split_and!; [done|lia|done]. }
  rewrite Hg. cbn [mbind res_mbind res_bind].
  eexists _, s, _. split; [done|]. cbn [alist V].
  assert (Z.to_nat u < length (alist gr))%nat as Hlt' by (apply lookup_lt_Some in Hl; lia).
  split_and!.
  - apply Forall_insert; [done|]. cbn. lia.
  - done.
  - by apply list_lookup_insert_eq.
  - done.
  - done.
  - intros a Ha. destruct (wf_graph_lookup gr a) as (sa & Hla & _); [done..|].
    exists (d sa). split; [by apply graph_out_degree_ok|].
    case_bool_decide as Hau.
    + subst a. rewrite Hl in Hla. injection Hla as <-.
      apply (graph_out_degree_ok _ u
               {| d := d s + 1; len := l'; is_sorted := false;
                  succ := take (Z.to_nat (d s)) (succ s) ++ [v] |}); [done|].
      cbn. by apply list_lookup_insert_eq.
    + apply (graph_out_degree_ok _ a sa); [done|]. cbn.
      rewrite list_lookup_insert_ne by lia. done.
Qed.

Lemma add_edge_within_capacity_witness :
  ∃ gr' s', graph_add_edge (graph_create 2) 0 1 = Ok gr' ∧
            alist gr' !! Z.to_nat 0 = Some s' ∧ len s' = 1 ∧
            graph_out_degree gr' 0 = Ok 1.
Proof.
  destruct (add_edge_within_capacity (graph_create 2) 0 1)
    as (gr' & s & s' & Hadd & _ & Hs & Hs' & _ & Hlen & Hdeg).
  - apply graph_create_wf. by vm_compute.
  - apply Forall_replicate. cbn. lia.
  - by vm_compute.
  - by vm_compute.
  - exists gr', s'. split; [done|]. split; [done|].
    vm_compute in Hs. injection Hs as <-. split; [exact Hlen|].
    destruct (Hdeg 0) as (k & Hk & Hk'); [by vm_compute|].
    vm_compute in Hk. injection Hk as <-. exact Hk'.
Defined.

(** X5. [graph_has_edge] only reorders: on a well-formed graph and
    vertices in range it returns, and the vertex count, the edge count,
    every out-degree and the successors of every vertex (up to their
    order) are what they were. *)
Theorem has_edge_only_reorders gr source target :
  wf_graph gr → 0 <= source < V gr → 0 <= target < V gr →
  ∃ r, graph_has_edge gr source target = Ok r ∧
    graph_vertex_count (he_graph r) = graph_vertex_count gr ∧
    graph_edge_count (he_graph r) = graph_edge_count gr ∧
    length (alist (he_graph r)) = length (alist gr) ∧
    ∀ (u : nat) s, alist gr !! u = Some s →
      ∃ s', alist (he_graph r) !! u = Some s' ∧ d s' = d s ∧ len s' = len s ∧
            succ s' ≡ₚ succ s.
Proof.
  intros Hwf Hs Ht. destruct (wf_graph_lookup gr source) as (s & Hl & Hws); [done..|].
  unfold graph_has_edge. rewrite (graph_out_degree_ok gr source s) by done.
  cbn [mbind res_mbind res_bind]. rewrite Hl.
  destruct (BSEARCH_PROMPT_SIZE <=? d s).
  - destruct (has_edge_bsearch_spec (V gr) s target) as (s' & Heq & Hws' & Hp & Hd & _);
      [apply Hwf|done..|].
    assert (len s' = len s) as Hlen.
    { unfold has_edge_bsearch in Heq. destruct (bsearch _ _ _ _); try discriminate Heq.
      cbn in Heq. by inversion Heq. }
    rewrite Heq. cbn [mbind res_mbind res_bind]. eexists. split; [done|]. cbn.
    split_and!; [done|done|by rewrite length_insert|].
    intros u su Hu. destruct (decide (u = Z.to_nat source)) as [->|Hne].
    + rewrite Hl in Hu. injection Hu as <-. exists s'.
      rewrite list_lookup_insert_eq by (by apply lookup_lt_Some in Hl). done.
    + exists su. by rewrite list_lookup_insert_ne.
  - eexists. split; [done|]. cbn. split_and!; [done..|]. intros u su Hu. by exists su.
Qed.

Lemma has_edge_only_reorders_witness :
  ∃ r s', graph_has_edge (Generator.g fan) 0 7 = Ok r ∧
          alist (he_graph r) !! 0%nat = Some s' ∧ d s' = 15 ∧
          graph_edge_count (he_graph r) = 29.
Proof.
  destruct (has_edge_only_reorders (Generator.g fan) 0 7 (proj1 fan_wf))
    as (r & Hr & _ & HE & _ & Hsucc); [by vm_compute..|].
  pose proof (Hsucc 0%nat) as Hsucc0. vm_compute (alist _ !! _) in Hsucc0.
  destruct (Hsucc0 _ eq_refl) as (s' & Hs' & Hd & _).
  exists r, s'. split; [done|]. split; [done|]. split; [exact Hd|exact HE].
Defined.

Lemma graph_add_edge_V gr u v gr' :
  graph_add_edge gr u v = Ok gr' → V gr' = V gr ∧ E gr' = E gr + 1.
Proof.
  unfold graph_add_edge, assert.
  destruct (0 <=? u); [|done]. destruct (u <? V gr); [|done].
  destruct (0 <=? v); [|done]. destruct (v <? V gr); [|done].
  cbn -[grow_len]. destruct (alist gr !! _); [|done].
  destruct (grow_len _ _ _); try done. cbn. by intros [= <-].
Qed.

Lemma add_edges_V g0 args g' : Generator.add_edges g0 args = Ok g' → V g' = V g0.
Proof.
  revert g0. induction args as [|[u v] args IH]; intros g0; cbn [Generator.add_edges].
  - by intros [= <-].
  - destruct (graph_add_edge g0 _ _) as [g1| | | | |] eqn:Hadd; try done.
    cbn. intros Hg%IH. apply graph_add_edge_V in Hadd as [HV _]. congruence.
Qed.

Lemma setup_inv (args : list (Z * Z)) st :
  Generator.setup args = Ok st →
  args ≠ [] ∧ Generator.vertex_set st = foldl Generator.collect [] args ∧
  Generator.best_fb_size_l st = Z.of_nat (length args) - 1 ∧
  Generator.write_at st = 0 ∧ Generator.quit_l st = 0 ∧
  V (Generator.g st) = Z.of_nat (length (foldl Generator.collect [] args)) ∧
  E (Generator.g st) = Z.of_nat (length args).
Proof.
  unfold Generator.setup. case_bool_decide as Hne; [done|]. intros H.
  unfold graph_vertex_count, graph_edge_count in H.
  rewrite !assert_true in H by (cbn; lia). cbn [mbind res_mbind res_bind] in H.
  destruct (Generator.add_edges _ _) as [g'| | | | |] eqn:Hadd; try discriminate H.
  cbn [mbind res_mbind res_bind] in H. unfold assert in H.
  destruct (Z.eqb_spec (E g') (Z.of_nat (length args))) as [HE|HE]; [|discriminate H].
  cbn in H. injection H as <-.
  cbn [Generator.vertex_set Generator.best_fb_size_l Generator.write_at Generator.quit_l
       Generator.g].
  repeat apply conj; try done. by apply add_edges_V in Hadd.
Qed.

(** X6. The vertex set the generator builds from its arguments has no
    duplicates and consists of exactly the labels that occur in the
    arguments; the graph has one vertex per member, and the local best
    starts at the number of arguments minus one. *)
Theorem setup_vertex_set (args : list (Z * Z)) st :
  Generator.setup args = Ok st →
  NoDup (Generator.vertex_set st) ∧
  (∀ x, x ∈ Generator.vertex_set st ↔ x ∈ labels args) ∧
  graph_vertex_count (Generator.g st) = Z.of_nat (length (Generator.vertex_set st)) ∧
  graph_edge_count (Generator.g st) = Z.of_nat (length args) ∧
  Generator.best_fb_size_l st = Z.of_nat (length args) - 1.
Proof.
  intros (Hne & Hvs & Hb & _ & _ & HV & HE)%setup_inv.
  destruct (foldl_collect_spec args []) as (Hnd & Hel & _); [constructor|].
  rewrite Hvs. split_and!; try done. intros x. rewrite Hel. set_solver.
Qed.

Lemma setup_vertex_set_witness :
  NoDup (Generator.vertex_set cycle3) ∧ Generator.best_fb_size_l cycle3 = 2.
Proof.
  destruct (setup_vertex_set cycle3_args cycle3 eq_refl) as (Hnd & _ & _ & _ & Hb).
  split; [exact Hnd|exact Hb].
Defined.

Lemma generate_random_range r lower upper :
  0 <= r → lower <= upper → lower <= generate_random r lower upper <= upper.
Proof.
  intros Hr Hlu. unfold generate_random.
  pose proof (Z.rem_bound_pos r (upper - lower + 1) Hr ltac:(lia)). lia.
Qed.

Lemma shuffle_loop_spec rand todo i (size : nat) (set : list Z) :
  (∀ k, 0 <= rand k) → (i + todo = size)%nat → (size ≤ length set)%nat →
  ∃ set', shuffle_loop rand todo i (Z.of_nat size) set = Ok set' ∧
          set' ≡ₚ set ∧ drop size set' = drop size set.
Proof.
  intros Hrand. revert i set. induction todo as [|todo IH]; intros i set Hi Hsize.
  - by exists set.
  - cbn [shuffle_loop].
    pose proof (generate_random_range (rand i) (Z.of_nat i) (Z.of_nat size - 1)
                  (Hrand i) ltac:(lia)) as Hpos.
    set (rand_pos := generate_random (rand i) (Z.of_nat i) (Z.of_nat size - 1)) in *.
    destruct (Z.ltb_spec rand_pos 0); [lia|].
    destruct (lookup_lt_is_Some_2 set i) as [temp Htemp]; [lia|].
    destruct (lookup_lt_is_Some_2 set (Z.to_nat rand_pos)) as [x Hx]; [lia|].
    rewrite Htemp, Hx.
    destruct (IH (S i) (<[Z.to_nat rand_pos:=temp]> (<[i:=x]> set)))
      as (set' & Hs & Hp & Hd); [lia|by rewrite !length_insert|].
    exists set'. split; [done|]. split.
    + rewrite Hp. by apply Permutation_insert_swap.
    + rewrite Hd, !drop_insert_lt by lia. done.
Qed.

(** X7. [shuffle_vertex_set] with non-negative values of [rand()] and a
    size within the array: every position drawn by [generate_random] lies
    inside the array, the call returns, the array afterwards is a
    permutation of the array before, and the cells from [size] on are
    untouched. *)
Theorem shuffle_is_permutation rand (set : list Z) (size : nat) :
  (∀ k, 0 <= rand k) → (size ≤ length set)%nat →
  (∀ i : nat, (i < size)%nat →
     Z.of_nat i <= generate_random (rand i) (Z.of_nat i) (Z.of_nat size - 1) < Z.of_nat size) ∧
  ∃ set', shuffle_vertex_set rand set size = Ok set' ∧
          set' ≡ₚ set ∧ length set' = length set ∧ drop size set' = drop size set.
Proof.
  intros Hrand Hsize. split.
  - intros i Hi.
    pose proof (generate_random_range (rand i) (Z.of_nat i) (Z.of_nat size - 1)
                  (Hrand i) ltac:(lia)). lia.
  - destruct (shuffle_loop_spec rand size 0 size set) as (set' & Hs & Hp & Hd); [done..|].
    exists set'. split_and!; [done|done|by rewrite Hp|done].
Qed.

Lemma shuffle_is_permutation_witness :
  shuffle_vertex_set (λ k, 7 * Z.of_nat k + 5) [10; 11; 12; 13] 4 = Ok [11; 10; 13; 12] ∧
  [11; 10; 13; 12] ≡ₚ [10; 11; 12; 13].
Proof.
  destruct (shuffle_is_permutation (λ k, 7 * Z.of_nat k + 5) [10; 11; 12; 13] 4)
    as (_ & set' & Hs & Hp & _); [intros k; lia|cbn; lia|].
  vm_compute in Hs. injection Hs as <-. split; [reflexivity|exact Hp].
Defined.

Lemma next_pos_range pos : 0 <= pos < BUF_SIZE → 0 <= (pos + 1) `rem` BUF_SIZE < BUF_SIZE.
Proof.
  unfold BUF_SIZE. intros Hp. rewrite Z.rem_mod_nonneg by lia.
  apply Z.mod_pos_bound. lia.
Qed.

Lemma next_pos_shift pos (j : nat) :
  0 <= pos < BUF_SIZE →
  ((pos + 1) `rem` BUF_SIZE + Z.of_nat j) `mod` BUF_SIZE
  = (pos + Z.of_nat (S j)) `mod` BUF_SIZE.
Proof.
  unfold BUF_SIZE. intros Hp. rewrite Z.rem_mod_nonneg by lia.
  rewrite Zplus_mod_idemp_l. f_equal. lia.
Qed.

(** The slot scan, when some slot within [fuel] steps is not busy. *)
Lemma find_slot_finds fuel busy (slots : list Fb_arc_set) pos (j : nat) s :
  length slots = Z.to_nat BUF_SIZE → 0 <= pos < BUF_SIZE → (j ≤ fuel)%nat →
  slots !! Z.to_nat ((pos + Z.of_nat j) `mod` BUF_SIZE) = Some s → written s ≠ busy →
  ∃ p s', find_slot fuel busy slots pos = Ok p ∧ 0 <= p < BUF_SIZE ∧
          slots !! Z.to_nat p = Some s' ∧ written s' ≠ busy.
Proof.
  intros Hlen. revert pos j. induction fuel as [|fuel IH]; intros pos j Hpos Hj Hs Hw.
  - assert (j = 0%nat) as -> by lia. rewrite Z.add_0_r, Z.mod_small in Hs by done.
    cbn [find_slot]. rewrite Hs, bool_decide_eq_false_2 by done.
    exists pos, s. split_and!; (done || lia).
  - cbn [find_slot].
    destruct (lookup_lt_is_Some_2 slots (Z.to_nat pos)) as [s0 Hs0];
      [unfold BUF_SIZE in *; lia|].
    rewrite Hs0. case_bool_decide as Hb; [|exists pos, s0; split_and!; (done || lia)].
    destruct j as [|j].
    { rewrite Z.add_0_r, Z.mod_small in Hs by done. congruence. }
    apply (IH _ j); [by apply next_pos_range|lia| |done].
    by rewrite next_pos_shift.
Qed.

(** The slot scan, when every slot is busy. *)
Lemma find_slot_spins fuel busy (slots : list Fb_arc_set) pos :
  length slots = Z.to_nat BUF_SIZE → 0 <= pos < BUF_SIZE →
  Forall (λ s, written s = busy) slots → find_slot fuel busy slots pos = Spins.
Proof.
  intros Hlen. revert pos. induction fuel as [|fuel IH]; intros pos Hpos Hall;
    cbn [find_slot];
    (destruct (lookup_lt_is_Some_2 slots (Z.to_nat pos)) as [s0 Hs0];
      [unfold BUF_SIZE in *; lia|]);
    rewrite Hs0, bool_decide_eq_true_2 by (rewrite Forall_lookup in Hall; eauto);
    [done|]. apply IH; [by apply next_pos_range|done].
Qed.

Lemma find_slot_finds_free busy (slots : list Fb_arc_set) pos :
  length slots = Z.to_nat BUF_SIZE → 0 <= pos < BUF_SIZE →
  Exists (λ s, written s ≠ busy) slots →
  ∃ p s, find_slot (Z.to_nat BUF_SIZE) busy slots pos = Ok p ∧ 0 <= p < BUF_SIZE ∧
         slots !! Z.to_nat p = Some s ∧ written s ≠ busy.
Proof.
  intros Hlen Hpos (s & Hin & Hw)%Exists_exists.
  apply list_elem_of_lookup_1 in Hin as [q Hq].
  assert (q < Z.to_nat BUF_SIZE)%nat as Hqlt by (apply lookup_lt_Some in Hq; lia).
  apply (find_slot_finds _ _ _ _ (Z.to_nat ((Z.of_nat q - pos) `mod` BUF_SIZE)) s);
    try done.
  - pose proof (Z.mod_pos_bound (Z.of_nat q - pos) BUF_SIZE ltac:(done)). lia.
  - rewrite Z2Nat.id by (apply Z.mod_pos_bound; done).
    rewrite Zplus_mod_idemp_r.
    replace (pos + (Z.of_nat q - pos)) with (Z.of_nat q) by lia.
    rewrite Z.mod_small by lia. by rewrite Nat2Z.id.
Qed.

(** X8. The slot scan of both programs on the eight slots, from a cursor
    inside the ring: when some slot is not busy the scan returns the
    position of a slot that is not busy; when all slots are busy it never
    ends by itself. *)
Theorem find_slot_complete busy (slots : list Fb_arc_set) pos :
  length slots = Z.to_nat BUF_SIZE → 0 <= pos < BUF_SIZE →
  (Exists (λ s, written s ≠ busy) slots →
     ∃ p s, find_slot (Z.to_nat BUF_SIZE) busy slots pos = Ok p ∧ 0 <= p < BUF_SIZE ∧
            slots !! Z.to_nat p = Some s ∧ written s ≠ busy) ∧
  (Forall (λ s, written s = busy) slots →
     find_slot (Z.to_nat BUF_SIZE) busy slots pos = Spins).
Proof.
  intros Hlen Hpos. split; [by apply find_slot_finds_free|by apply find_slot_spins].
Qed.

Lemma find_slot_complete_witness :
  ∃ p, find_slot (Z.to_nat BUF_SIZE) false
         (<[2%nat := {| written := true; num_e := 1; edges := [] |}]>
            (sets Supervisor.zero_buffer)) 5 = Ok p ∧ 0 <= p < BUF_SIZE.
Proof.
  destruct (find_slot_complete false
              (<[2%nat := {| written := true; num_e := 1; edges := [] |}]>
                 (sets Supervisor.zero_buffer)) 5) as [Hfinds _]; [done|done|].
  destruct Hfinds as (p & s & Hp & Hr & _).
  - apply Exists_exists. exists {| written := true; num_e := 1; edges := [] |}.
    split; [|done]. apply (list_elem_of_lookup_2 _ 2%nat). reflexivity.
  - by exists p.
Defined.

(** X9. Whatever the kernel answers to the semaphore calls, a pass
    through the generator's loop body changes the shared block in one way
    only: a publication fills one slot that was not marked written, with
    a payload marked written, and leaves every other slot and the three
    shared scalars alone; without a publication nothing shared changes. *)
Theorem generator_fills_one_free_slot rets vs st sh st' sh' a :
  Generator.iteration rets vs st sh = Ok (st', sh', a) →
  match a with
  | Generator.Published slot fb =>
      ∃ s, sets (ring_buf sh) !! Z.to_nat slot = Some s ∧ written s = false ∧
           written fb = true ∧
           ring_buf sh' = set_sets (ring_buf sh) (<[Z.to_nat slot := fb]> (sets (ring_buf sh)))
  | _ => sh' = sh
  end.
Proof.
  unfold Generator.iteration. intros H.
  destruct (Generator.scan _ _ _) as [[g' sr]| | | | |] eqn:Hs; try discriminate H.
  cbn [mbind res_mbind res_bind] in H. unfold Generator.after_scan in H.
  destruct sr as [|es k]; [by injection H as <- <- <-|].
  destruct (_ && _); [|by injection H as <- <- <-].
  destruct (_ <? k); [by injection H as <- <- <-|].
  res_inv.
  match goal with
  | Hf : find_slot _ _ _ _ = Ok _ |- _ => apply find_slot_ok in Hf as (s & Hl & Hw)
  end.
  injection H as <- <- <-. exists s. split_and!; [done| |done|done].
  by destruct (written s).
Qed.

Lemma generator_fills_one_free_slot_witness :
  ∃ st' sh' fb,
    Generator.iteration all_ok [0; 1; 2] cycle3 (shared_with_best 1)
    = Ok (st', sh', Generator.Published 0 fb) ∧
    sets (ring_buf sh') = <[0%nat := fb]> (sets (ring_buf (shared_with_best 1))).
Proof.
  eexists _, _, _.
  match goal with
  | |- ?it = Ok (?st', ?sh', ?ev) ∧ _ =>
      assert (it = Ok (st', sh', ev)) as Hit by (by vm_compute)
  end.
  split; [exact Hit|].
  destruct (generator_fills_one_free_slot _ _ _ _ _ _ _ Hit) as (s & _ & _ & _ & Hrb).
  by rewrite Hrb.
Defined.

(** X10. Whatever the kernel answers, a pass of the supervisor that
    returns has drained a slot that was marked written, has cleared that
    mark and nothing else in the slots, and has left the cursor on the
    position after it. *)
Theorem supervisor_drains_written_slot rets st sh st' sh' ev :
  Supervisor.iteration rets st sh = Ok (st', sh', ev) →
  ∃ slot fb,
    sets (ring_buf sh) !! Z.to_nat slot = Some fb ∧ written fb = true ∧
    sets (ring_buf sh')
    = <[Z.to_nat slot := {| written := false; num_e := num_e fb; edges := edges fb |}]>
        (sets (ring_buf sh)) ∧
    Supervisor.read_from st' = (slot + 1) `rem` BUF_SIZE.
Proof.
  unfold Supervisor.iteration. intros H. res_inv.
  match goal with
  | Hf : find_slot _ _ _ ?p = Ok ?q |- _ =>
      pose proof (find_slot_ok _ _ _ _ _ Hf) as (s & Hl & Hw); exists q
  end.
  rewrite Hl in H. res_inv. exists s. split; [done|].
  split; [by destruct (written s)|].
  destruct (num_e s =? 0); [by injection H as <- <- <-|].
  destruct (_ <? _); by injection H as <- <- <-.
Qed.

Lemma supervisor_drains_written_slot_witness :
  ∃ st sh fb st' sh',
    Generator.iteration all_ok [0; 1; 2] cycle3 Supervisor.setup.2
    = Ok (st, sh, Generator.Published 0 fb) ∧
    Supervisor.iteration sup_ok Supervisor.setup.1 sh
    = Ok (st', sh', Supervisor.Solution 1 [mk_Edge 2 0]) ∧
    ∃ slot fb', sets (ring_buf sh) !! Z.to_nat slot = Some fb' ∧ written fb' = true ∧
                Supervisor.read_from st' = (slot + 1) `rem` BUF_SIZE.
Proof.
  eexists _, _, _, _, _. split; [by vm_compute|].
  match goal with
  | |- ?it = Ok (?st', ?sh', ?ev) ∧ _ =>
      assert (it = Ok (st', sh', ev)) as Hit by (by vm_compute)
  end.
  split; [exact Hit|].
  destruct (supervisor_drains_written_slot _ _ _ _ _ _ Hit) as (slot & fb & Hl & Hw & _ & Hr).
  by exists slot, fb.
Defined.

Lemma occupied_cons s slots :
  occupied (s :: slots) = (if written s then 1 else 0) + occupied slots.
Proof.
  unfold occupied. destruct (written s) eqn:Hw.
  - rewrite filter_cons_True by done. cbn [length]. lia.
  - rewrite filter_cons_False by (rewrite Hw; done). lia.
Qed.

Lemma occupied_bounds slots : 0 <= occupied slots <= Z.of_nat (length slots).
Proof. unfold occupied. pose proof (length_filter (λ s, written s = true) slots). lia. Qed.

Lemma occupied_insert slots (p : nat) s s' :
  slots !! p = Some s →
  occupied (<[p := s']> slots)
  = occupied slots - (if written s then 1 else 0) + (if written s' then 1 else 0).
Proof.
  revert p. induction slots as [|s0 slots IH]; intros p Hp; [done|].
  destruct p as [|p]; cbn in Hp.
  - injection Hp as ->. cbn [insert list_insert]. rewrite !occupied_cons. lia.
  - change (<[S p:=s']> (s0 :: slots)) with (s0 :: <[p:=s']> slots).
    rewrite !occupied_cons, (IH p) by done. lia.
Qed.

Lemma occupied_nil : occupied [] = 0.
Proof. done. Qed.

Lemma occupied_not_full slots :
  occupied slots < Z.of_nat (length slots) → Exists (λ s, written s ≠ true) slots.
Proof.
  induction slots as [|s slots IH]; [rewrite occupied_nil; cbn; lia|]. rewrite occupied_cons. cbn [length].
  destruct (written s) eqn:Hw.
  - intros Hlt. right. apply IH. lia.
  - intros _. left. by rewrite Hw.
Qed.

Lemma occupied_not_empty slots :
  0 < occupied slots → Exists (λ s, written s ≠ false) slots.
Proof.
  induction slots as [|s slots IH]; [rewrite occupied_nil; lia|]. rewrite occupied_cons.
  destruct (written s) eqn:Hw.
  - intros _. left. by rewrite Hw.
  - intros Hlt. right. apply IH. lia.
Qed.

Lemma occupied_zero slots : occupied slots = 0 → Forall (λ s, written s = false) slots.
Proof.
  induction slots as [|s slots IH]; [done|]. rewrite occupied_cons.
  pose proof (occupied_bounds slots). destruct (written s) eqn:Hw; [lia|].
  intros Hz. constructor; [done|]. apply IH. lia.
Qed.

Lemma occupied_all slots :
  occupied slots = Z.of_nat (length slots) → Forall (λ s, written s = true) slots.
Proof.
  induction slots as [|s slots IH]; [done|]. rewrite occupied_cons. cbn [length].
  pose proof (occupied_bounds slots). destruct (written s) eqn:Hw; [|lia].
  intros Hz. constructor; [done|]. apply IH. lia.
Qed.

Lemma publication_ring_step st sh es k :
  ring_inv sh → 0 <= Generator.write_at st < BUF_SIZE → 0 < excl_sem sh →
  k < Generator.best_fb_size_l st → k <= MAX_VIABLE_COUNT →
  k <= best_fb_size (ring_buf sh) →
  (0 < free_sem sh →
     ∃ st' sh' slot,
       Generator.after_scan all_ok st sh (Generator.ScanDone es k)
       = Ok (st', sh', Generator.Published slot (Generator.build_fb_arc_set es k)) ∧
       ring_inv sh' ∧
       used_sem sh' = used_sem sh + 1 ∧ free_sem sh' = free_sem sh - 1 ∧
       excl_sem sh' = excl_sem sh ∧
       0 <= Generator.write_at st' < BUF_SIZE) ∧
  (free_sem sh = 0 →
     Generator.after_scan all_ok st sh (Generator.ScanDone es k) = Blocked).
Proof.
  intros [Hlen Hused Hfree] Hcur Hexcl Hk H8 Hshared.
  unfold Generator.after_scan.
  destruct (Z.ltb_spec k (Generator.best_fb_size_l st)); [|lia].
  destruct (Z.leb_spec k MAX_VIABLE_COUNT); [|lia]. cbn [andb].
  destruct (Z.ltb_spec (best_fb_size (ring_buf sh)) k); [lia|].
  cbn [wait_sem all_ok Generator.wait_excl Generator.wait_free Generator.post_used
       Generator.post_excl post_sem].
  destruct (Z.ltb_spec 0 (excl_sem sh)); [|lia]. cbn [mbind res_mbind res_bind].
  split.
  - intros Hpos. destruct (Z.ltb_spec 0 (free_sem sh)); [|lia].
    cbn [mbind res_mbind res_bind].
    destruct (find_slot_finds_free true (sets (ring_buf sh)) (Generator.write_at st))
      as (p & s & Hf & Hp & Hl & Hw); [done|done| |].
    { apply occupied_not_full. rewrite Hlen. unfold BUF_SIZE in *. lia. }
    rewrite Hf. cbn [mbind res_mbind res_bind].
    eexists _, _, p. split; [done|]. split; [|split; [|split; [|split]]].
    + constructor; cbn.
      * by rewrite length_insert.
      * rewrite (occupied_insert _ _ s) by done. cbn.
        destruct (written s); [done|]. lia.
      * lia.
    + done.
    + done.
    + cbn. lia.
    + destruct (_ && _); cbn; by apply next_pos_range.
  - intros Hz. destruct (Z.ltb_spec 0 (free_sem sh)); [lia|]. done.
Qed.

Lemma drain_ring_step st sh :
  ring_inv sh → 0 <= Supervisor.read_from st < BUF_SIZE →
  (0 < used_sem sh →
     ∃ st' sh' ev,
       Supervisor.iteration sup_ok st sh = Ok (st', sh', ev) ∧
       ring_inv sh' ∧
       used_sem sh' = used_sem sh - 1 ∧ free_sem sh' = free_sem sh + 1 ∧
       excl_sem sh' = excl_sem sh ∧
       0 <= Supervisor.read_from st' < BUF_SIZE) ∧
  (used_sem sh = 0 → Supervisor.iteration sup_ok st sh = Blocked).
Proof.
  intros [Hlen Hused Hfree] Hcur. unfold Supervisor.iteration.
  cbn [sup_ok Supervisor.getval_free Supervisor.getval_used Supervisor.wait_used
       Supervisor.post_free getval_sem wait_sem post_sem mbind res_mbind res_bind].
  split.
  - intros Hpos. destruct (Z.ltb_spec 0 (used_sem sh)); [|lia].
    cbn [mbind res_mbind res_bind].
    destruct (find_slot_finds_free false (sets (ring_buf sh)) (Supervisor.read_from st))
      as (p & s & Hf & Hp & Hl & Hw); [done|done| |].
    { apply occupied_not_empty. lia. }
    rewrite Hf. cbn [mbind res_mbind res_bind]. rewrite Hl.
    assert (written s = true) as Hws by (by destruct (written s)).
    assert (ring_inv
              {| ring_buf := set_sets (ring_buf sh)
                   (<[Z.to_nat p := {| written := false; num_e := num_e s; edges := edges s |}]>
                      (sets (ring_buf sh)));
                 excl_sem := excl_sem sh; used_sem := used_sem sh - 1;
                 free_sem := free_sem sh + 1 |}) as Hinv.
    { constructor; cbn.
      - by rewrite length_insert.
      - rewrite (occupied_insert _ _ s) by done. cbn. rewrite Hws. lia.
      - lia. }
    pose proof (next_pos_range p Hp) as Hnext.
    destruct (num_e s =? 0); [|destruct (_ <? _)];
      (eexists _, _, _; split; [done|]);
      (split; [by destruct Hinv|]); cbn; done.
  - intros Hz. destruct (Z.ltb_spec 0 (used_sem sh)); [lia|]. done.
Qed.

(** X11. With the ring and its semaphores in agreement, the kernel
    answering with success, the exclusion semaphore free and a candidate
    that passes the publication tests: when [free_sem] is positive the
    generator finds a free slot and publishes, one more slot is occupied,
    and ring and semaphores agree again; when [free_sem] is zero the
    generator sleeps in [sem_wait] and writes nothing. *)
Theorem publication_keeps_ring st sh es k :
  ring_inv sh → 0 <= Generator.write_at st < BUF_SIZE → 0 < excl_sem sh →
  k < Generator.best_fb_size_l st → k <= MAX_VIABLE_COUNT →
  k <= best_fb_size (ring_buf sh) →
  (0 < free_sem sh →
     ∃ st' sh' slot,
       Generator.after_scan all_ok st sh (Generator.ScanDone es k)
       = Ok (st', sh', Generator.Published slot (Generator.build_fb_arc_set es k)) ∧
       ring_inv sh' ∧
       used_sem sh' = used_sem sh + 1 ∧ free_sem sh' = free_sem sh - 1 ∧
       excl_sem sh' = excl_sem sh ∧
       0 <= Generator.write_at st' < BUF_SIZE) ∧
  (free_sem sh = 0 →
     Generator.after_scan all_ok st sh (Generator.ScanDone es k) = Blocked).
Proof. exact (publication_ring_step st sh es k). Qed.

Lemma shared_with_best_ring n : ring_inv (shared_with_best n).
Proof. by constructor. Qed.

Lemma publication_keeps_ring_witness :
  ∃ st' sh' slot,
    Generator.after_scan all_ok cycle3 (shared_with_best 1)
      (Generator.ScanDone [mk_Edge 2 0] 1)
    = Ok (st', sh', Generator.Published slot (Generator.build_fb_arc_set [mk_Edge 2 0] 1)) ∧
    used_sem sh' = 1 ∧ free_sem sh' = 7.
Proof.
  destruct (publication_keeps_ring cycle3 (shared_with_best 1) [mk_Edge 2 0] 1
              (shared_with_best_ring 1)) as [Hpub _]; [by vm_compute..| |].
  { vm_compute. discriminate. }
  destruct Hpub as (st' & sh' & slot & Hp & _ & Hu & Hf & _); [by vm_compute|].
  exists st', sh', slot. split; [exact Hp|]. split; [exact Hu|exact Hf].
Defined.

(** X12. With the ring and its semaphores in agreement, the kernel
    answering with success and the cursor inside the ring: when
    [used_sem] is positive the supervisor finds a written slot and drains
    it, one slot fewer is occupied, and ring and semaphores agree again;
    when [used_sem] is zero the supervisor sleeps in [sem_wait]. *)
Theorem drain_keeps_ring st sh :
  ring_inv sh → 0 <= Supervisor.read_from st < BUF_SIZE →
  (0 < used_sem sh →
     ∃ st' sh' ev,
       Supervisor.iteration sup_ok st sh = Ok (st', sh', ev) ∧
       ring_inv sh' ∧
       used_sem sh' = used_sem sh - 1 ∧ free_sem sh' = free_sem sh + 1 ∧
       excl_sem sh' = excl_sem sh ∧
       0 <= Supervisor.read_from st' < BUF_SIZE) ∧
  (used_sem sh = 0 → Supervisor.iteration sup_ok st sh = Blocked).
Proof. exact (drain_ring_step st sh). Qed.

Lemma drain_keeps_ring_witness :
  Supervisor.iteration sup_ok Supervisor.setup.1 Supervisor.setup.2 = Blocked.
Proof.
  apply (drain_keeps_ring Supervisor.setup.1 Supervisor.setup.2); by vm_compute.
Defined.

Lemma copy_edges_spec (es : list Edge) (n : nat) :
  (n ≤ Z.to_nat MAX_VIABLE_COUNT)%nat → (n ≤ length es)%nat →
  foldl (λ acc i, match es !! i with Some e => <[i := e]> acc | None => acc end)
        (replicate (Z.to_nat MAX_VIABLE_COUNT) (mk_Edge 0 0)) (seq 0 n)
  = take n es ++ replicate (Z.to_nat MAX_VIABLE_COUNT - n) (mk_Edge 0 0).
Proof.
  induction n as [|n IH]; intros H8 Hlen.
  - cbn [seq foldl take app]. by rewrite Nat.sub_0_r.
  - rewrite seq_S, foldl_app, IH by lia. cbn [foldl Nat.add].
    destruct (lookup_lt_is_Some_2 es n) as [e He]; [lia|]. rewrite He.
    rewrite insert_app_r_alt by (rewrite length_take; lia).
    rewrite length_take, Nat.min_l, Nat.sub_diag by lia.
    replace (Z.to_nat MAX_VIABLE_COUNT - n)%nat
      with (S (Z.to_nat MAX_VIABLE_COUNT - S n)) by lia.
    cbn [replicate insert list_insert]. rewrite (take_S_r es n e) by done.
    by rewrite <- app_assoc.
Qed.

Lemma copy_edges_length (es : list Edge) (idx : list nat) acc :
  length (foldl (λ acc i, match es !! i with Some e => <[i := e]> acc | None => acc end)
            acc idx) = length acc.
Proof.
  revert acc. induction idx as [|i idx IH]; intros acc; [done|]. cbn [foldl].
  rewrite IH. destruct (es !! i); [apply length_insert|done].
Qed.

(** X13. The payload the generator builds: it is marked written, carries
    the candidate size, and always has [MAX_VIABLE_COUNT] edge cells; for
    a size between 0 and [MAX_VIABLE_COUNT] that does not exceed the
    number of collected edges, the cells are the first [best] collected
    edges followed by zeroed cells. *)
Theorem payload_layout (edge_set : list Edge) (best : Z) :
  written (Generator.build_fb_arc_set edge_set best) = true ∧
  num_e (Generator.build_fb_arc_set edge_set best) = best ∧
  length (edges (Generator.build_fb_arc_set edge_set best)) = Z.to_nat MAX_VIABLE_COUNT ∧
  (0 <= best <= MAX_VIABLE_COUNT → best <= Z.of_nat (length edge_set) →
     edges (Generator.build_fb_arc_set edge_set best)
     = take (Z.to_nat best) edge_set
       ++ replicate (Z.to_nat (MAX_VIABLE_COUNT - best)) (mk_Edge 0 0)).
Proof.
  split; [done|]. split; [done|]. split.
  - unfold Generator.build_fb_arc_set. cbn [edges].
    by rewrite copy_edges_length, length_replicate.
  - intros Hb Hlen. unfold Generator.build_fb_arc_set. cbn [edges].
    rewrite copy_edges_spec by lia. do 2 f_equal. lia.
Qed.

Lemma payload_layout_witness :
  edges (Generator.build_fb_arc_set [mk_Edge 2 0; mk_Edge 1 0] 1)
  = mk_Edge 2 0 :: replicate 7 (mk_Edge 0 0).
Proof.
  apply (payload_layout [mk_Edge 2 0; mk_Edge 1 0] 1); by vm_compute.
Defined.

(** X14. Publish, then drain. From an empty ring that agrees with its
    semaphores, with the kernel answering with success: the candidate a
    generator publishes is the one the supervisor drains next, wherever
    its cursor stands. The supervisor reports the graph acyclic for size
    0, prints the first [k] collected edges when [k] is below the shared
    best, and prints nothing when [k] equals the shared best; the ring is
    empty again afterwards. *)
Theorem publish_then_drain st sup sh es k :
  ring_inv sh → used_sem sh = 0 → 0 < excl_sem sh →
  0 <= Generator.write_at st < BUF_SIZE → 0 <= Supervisor.read_from sup < BUF_SIZE →
  0 <= k → k < Generator.best_fb_size_l st → k <= MAX_VIABLE_COUNT →
  k <= best_fb_size (ring_buf sh) → k <= Z.of_nat (length es) →
  ∃ st' sh' slot sup' sh'',
    Generator.after_scan all_ok st sh (Generator.ScanDone es k)
    = Ok (st', sh', Generator.Published slot (Generator.build_fb_arc_set es k)) ∧
    Supervisor.iteration sup_ok sup sh'
    = Ok (sup', sh'',
          if k =? 0 then Supervisor.GraphIsAcyclic
          else if k <? best_fb_size (ring_buf sh)
               then Supervisor.Solution k (take (Z.to_nat k) es)
               else Supervisor.Silent) ∧
    ring_inv sh'' ∧ used_sem sh'' = 0 ∧ free_sem sh'' = BUF_SIZE.
Proof.
  intros Hinv Hempty Hexcl Hw Hr Hk0 Hk H8 Hshared Hlen.
  destruct (publication_ring_step st sh es k) as [Hpub _]; [done..|].
  pose proof Hinv as [Hslots Hused Hfree].
  destruct Hpub as (st' & sh' & slot & Hp & Hinv' & Hu' & Hf' & He' & _); [lia|].
  assert (∃ s, sets (ring_buf sh) !! Z.to_nat slot = Some s ∧
               ring_buf sh' = set_sets (ring_buf sh)
                 (<[Z.to_nat slot := Generator.build_fb_arc_set es k]> (sets (ring_buf sh))))
    as (s0 & Hs0 & Hrb).
  { unfold Generator.after_scan in Hp.
    destruct (_ && _); [|discriminate Hp]. destruct (_ <? k); [discriminate Hp|].
    res_inv.
    match goal with
    | Hf : find_slot _ _ _ _ = Ok _ |- _ => apply find_slot_ok in Hf as (s & Hl & _)
    end.
    injection Hp as <- <- <-. by exists s. }
  assert (Forall (λ s, written s = false) (sets (ring_buf sh))) as Hall.
  { apply occupied_zero. lia. }
  destruct (drain_ring_step sup sh' Hinv' Hr) as [Hdrain _].
  destruct Hdrain as (sup' & sh'' & ev & Hit & Hinv'' & Hu'' & Hf'' & _); [lia|].
  exists st', sh', slot, sup', sh''. split; [done|].
  assert (ev = if k =? 0 then Supervisor.GraphIsAcyclic
               else if k <? best_fb_size (ring_buf sh)
                    then Supervisor.Solution k (take (Z.to_nat k) es)
                    else Supervisor.Silent) as <-; [|split_and!; [done|done|lia|lia]].
  clear Hinv''. unfold Supervisor.iteration in Hit. res_inv.
  match goal with
  | Hf : find_slot _ _ _ _ = Ok ?q |- _ =>
      rename q into drained; apply find_slot_ok in Hf as (s & Hl & Hws)
  end.
  assert (Z.to_nat drained = Z.to_nat slot) as Hq.
  { rewrite Hrb in Hl. cbn in Hl.
    destruct (decide (Z.to_nat drained = Z.to_nat slot)) as [|Hne]; [done|].
    rewrite list_lookup_insert_ne in Hl by done.
    rewrite Forall_lookup in Hall. apply Hall in Hl. congruence. }
  rewrite Hq in Hit, Hl. rewrite Hrb in Hl, Hit. cbn [set_sets sets best_fb_size] in Hl, Hit.
  rewrite list_lookup_insert_eq in Hl, Hit by (by apply lookup_lt_Some in Hs0).
  injection Hl as <-. res_inv. cbn [num_e edges Generator.build_fb_arc_set] in Hit.
  destruct (k =? 0); [by injection Hit as _ _ <-|].
  destruct (k <? best_fb_size (ring_buf sh)); [|by injection Hit as _ _ <-].
  injection Hit as _ _ <-. f_equal.
  rewrite copy_edges_spec by lia. rewrite take_app_le by (rewrite length_take; lia).
  by rewrite take_take, Nat.min_id.
Qed.

Lemma publish_then_drain_witness :
  ∃ st' sh' slot sup' sh'',
    Generator.after_scan all_ok cycle3 (shared_with_best 1)
      (Generator.ScanDone [mk_Edge 2 0] 1)
    = Ok (st', sh', Generator.Published slot (Generator.build_fb_arc_set [mk_Edge 2 0] 1)) ∧
    Supervisor.iteration sup_ok Supervisor.setup.1 sh'
    = Ok (sup', sh'', Supervisor.Silent).
Proof.
  destruct (publish_then_drain cycle3 Supervisor.setup.1 (shared_with_best 1)
              [mk_Edge 2 0] 1 (shared_with_best_ring 1))
    as (st' & sh' & slot & sup' & sh'' & Hp & Hd & _);
    try (by vm_compute); try (vm_compute; discriminate).
  by exists st', sh', slot, sup', sh''.
Defined.

Lemma sys_step_flags sh sh' :
  sys_step sh sh' →
  (quit (ring_buf sh) = 1 → quit (ring_buf sh') = 1) ∧
  (acyclic (ring_buf sh) = true → acyclic (ring_buf sh') = true).
Proof.
  destruct 1 as [rets st sh st' sh' ev H|st sh st' rb' H|rets vs st sh st' sh' a H].
  - unfold Supervisor.iteration in H. res_inv.
    destruct (sets (ring_buf sh) !! _) as [fb|]; [|discriminate H]. res_inv.
    destruct (num_e fb =? 0); [by injection H as <- <- <-|].
    destruct (_ <? _); by injection H as <- <- <-.
  - by injection H as <- <-.
  - apply iteration_shared in H as (-> & -> & _). done.
Qed.

(** X15. Stopping. When the supervisor drains a zero-edge candidate, or
    its signal handler runs, its own loop condition and the loop condition
    of every generator become false; and no later pass of any process
    clears the shared stop flag or the shared acyclic flag. *)
Theorem supervisor_stop_reaches_generators :
  (∀ rets st sh st' sh', Supervisor.iteration rets st sh
                         = Ok (st', sh', Supervisor.GraphIsAcyclic) →
     Supervisor.running st' = false ∧ ∀ gst, Generator.running gst sh' = false) ∧
  (∀ st rb st' rb', Supervisor.signal_handler st rb = (st', rb') →
     Supervisor.running st' = false ∧
     ∀ gst sh, ring_buf sh = rb' → Generator.running gst sh = false) ∧
  (∀ sh sh', rtc sys_step sh sh' →
     (quit (ring_buf sh) = 1 → ∀ gst, Generator.running gst sh' = false) ∧
     (acyclic (ring_buf sh) = true → ∀ gst, Generator.running gst sh' = false)).
Proof.
  split_and!.
  - intros rets st sh st' sh' H. unfold Supervisor.iteration in H. res_inv.
    destruct (sets (ring_buf sh) !! _) as [fb|]; [|discriminate H]. res_inv.
    destruct (num_e fb =? 0); [|destruct (_ <? _); discriminate H].
    injection H as <- <-. split; [done|]. intros gst. unfold Generator.running. cbn.
    by rewrite andb_false_r.
  - intros st rb st' rb' [= <- <-]. split; [done|]. intros gst sh Hrb.
    unfold Generator.running. rewrite Hrb. cbn. by rewrite andb_false_r.
  - intros sh sh' Hsteps.
    assert ((quit (ring_buf sh) = 1 → quit (ring_buf sh') = 1) ∧
            (acyclic (ring_buf sh) = true → acyclic (ring_buf sh') = true)) as [Hq Ha].
    { induction Hsteps as [|sh1 sh2 sh3 Hstep _ IH]; [done|].
      apply sys_step_flags in Hstep. naive_solver. }
    split; intros H0 gst; unfold Generator.running.
    + rewrite (Hq H0). by rewrite andb_false_r.
    + rewrite (Ha H0). cbn. by rewrite andb_false_r.
Qed.

Lemma supervisor_stop_reaches_generators_witness :
  ∃ st sh st' sh',
    Generator.iteration all_ok [0; 1; 2] path3 (shared_with_best 0)
    = Ok (st, sh, Generator.Published 0 (Generator.build_fb_arc_set [] 0)) ∧
    Supervisor.iteration sup_ok Supervisor.setup.1 sh
    = Ok (st', sh', Supervisor.GraphIsAcyclic) ∧
    Generator.running cycle3 sh' = false.
Proof.
  eexists _, _, _, _. split; [by vm_compute|].
  match goal with
  | |- ?it = Ok (?st', ?sh', ?ev) ∧ _ =>
      assert (it = Ok (st', sh', ev)) as Hit by (by vm_compute)
  end.
  split; [exact Hit|].
  apply (proj1 supervisor_stop_reaches_generators _ _ _ _ _ Hit).
Defined.

(** X16. An interrupted wait followed by a ring with nothing to find.
    When [sem_wait] on [used_sem] is interrupted and no slot is marked
    written, the supervisor polls the slots without end; when [sem_wait]
    on [free_sem] is interrupted and every slot is marked written, the
    generator polls the slots without end and overwrites none. *)
Theorem interrupted_wait_then_polling :
  (∀ st sh, length (sets (ring_buf sh)) = Z.to_nat BUF_SIZE →
     0 <= Supervisor.read_from st < BUF_SIZE →
     Forall (λ s, written s = false) (sets (ring_buf sh)) →
     Supervisor.iteration
       {| Supervisor.getval_free := SemOk; Supervisor.getval_used := SemOk;
          Supervisor.wait_used := SemErr EINTR; Supervisor.post_free := SemOk |} st sh
     = Spins) ∧
  (∀ st sh es k, length (sets (ring_buf sh)) = Z.to_nat BUF_SIZE →
     0 <= Generator.write_at st < BUF_SIZE → 0 < excl_sem sh →
     Forall (λ s, written s = true) (sets (ring_buf sh)) →
     k < Generator.best_fb_size_l st → k <= MAX_VIABLE_COUNT →
     k <= best_fb_size (ring_buf sh) →
     Generator.after_scan
       {| Generator.wait_excl := SemOk; Generator.wait_free := SemErr EINTR;
          Generator.post_used := SemOk; Generator.post_excl := SemOk |} st sh
       (Generator.ScanDone es k)
     = Spins).
Proof.
  split.
  - intros st sh Hlen Hr Hall. unfold Supervisor.iteration.
    cbn [Supervisor.getval_free Supervisor.getval_used Supervisor.wait_used
         getval_sem wait_sem mbind res_mbind res_bind].
    rewrite Z.eqb_refl. cbn [mbind res_mbind res_bind].
    by rewrite find_slot_spins.
  - intros st sh es k Hlen Hw Hexcl Hall Hk H8 Hshared. unfold Generator.after_scan.
    destruct (Z.ltb_spec k (Generator.best_fb_size_l st)); [|lia].
    destruct (Z.leb_spec k MAX_VIABLE_COUNT); [|lia]. cbn [andb].
    destruct (Z.ltb_spec (best_fb_size (ring_buf sh)) k); [lia|].
    cbn [Generator.wait_excl Generator.wait_free wait_sem].
    destruct (Z.ltb_spec 0 (excl_sem sh)); [|lia].
    rewrite Z.eqb_refl. cbn [mbind res_mbind res_bind].
    by rewrite find_slot_spins.
Qed.

Lemma interrupted_wait_then_polling_witness :
  Supervisor.iteration
    {| Supervisor.getval_free := SemOk; Supervisor.getval_used := SemOk;
       Supervisor.wait_used := SemErr EINTR; Supervisor.post_free := SemOk |}
    Supervisor.setup.1 Supervisor.setup.2
  = Spins.
Proof.
  apply (proj1 interrupted_wait_then_polling); [done|done|].
  by apply Forall_replicate.
Defined.

(** X17. What a pass through the loop body does to the generator's own
    state. The local best never grows. A published candidate is smaller
    than the local best was, has at most [MAX_VIABLE_COUNT] edges, does
    not exceed the shared best, and becomes the local best. An adopted
    shared best is smaller than the candidate. Without publication and
    adoption the local best, the cursor and the stop flag stay. *)
Theorem local_best_only_decreases rets vs st sh st' sh' a :
  Generator.iteration rets vs st sh = Ok (st', sh', a) →
  Generator.best_fb_size_l st' <= Generator.best_fb_size_l st ∧
  Generator.vertex_set st' = vs ∧
  match a with
  | Generator.Published slot fb =>
      num_e fb < Generator.best_fb_size_l st ∧ num_e fb <= MAX_VIABLE_COUNT ∧
      num_e fb <= best_fb_size (ring_buf sh) ∧
      Generator.best_fb_size_l st' = num_e fb ∧
      Generator.write_at st' = (slot + 1) `rem` BUF_SIZE
  | Generator.Adopted =>
      Generator.best_fb_size_l st' = best_fb_size (ring_buf sh) ∧
      Generator.best_fb_size_l st' < Generator.best_fb_size_l st ∧
      Generator.write_at st' = Generator.write_at st ∧
      Generator.quit_l st' = Generator.quit_l st
  | _ =>
      Generator.best_fb_size_l st' = Generator.best_fb_size_l st ∧
      Generator.write_at st' = Generator.write_at st ∧
      Generator.quit_l st' = Generator.quit_l st
  end.
Proof.
  unfold Generator.iteration. intros H.
  destruct (Generator.scan _ _ _) as [[g' sr]| | | | |] eqn:Hs; try discriminate H.
  cbn [mbind res_mbind res_bind] in H. unfold Generator.after_scan in H.
  cbn [Generator.best_fb_size_l Generator.write_at Generator.quit_l Generator.g
       Generator.vertex_set] in H.
  destruct sr as [|es k]; [injection H as <- <- <-; cbn; split_and!; (done || lia)|].
  destruct (Z.ltb_spec k (Generator.best_fb_size_l st)) as [Hk|Hk];
    [|injection H as <- <- <-; cbn; split_and!; (done || lia)].
  destruct (Z.leb_spec k MAX_VIABLE_COUNT) as [H8|H8];
    [|injection H as <- <- <-; cbn; split_and!; (done || lia)]. cbn [andb] in H.
  destruct (Z.ltb_spec (best_fb_size (ring_buf sh)) k) as [Hsh|Hsh];
    [injection H as <- <- <-; cbn; split_and!; (done || lia)|].
  res_inv. injection H as <- <- <-.
  destruct (_ && _); cbn; split_and!; (done || lia).
Qed.

Lemma local_best_only_decreases_witness :
  ∃ st' sh' fb,
    Generator.iteration all_ok [0; 1; 2] cycle3 (shared_with_best 1)
    = Ok (st', sh', Generator.Published 0 fb) ∧
    Generator.best_fb_size_l st' = num_e fb ∧ num_e fb < 2.
Proof.
  eexists _, _, _.
  match goal with
  | |- ?it = Ok (?st', ?sh', ?ev) ∧ _ =>
      assert (it = Ok (st', sh', ev)) as Hit by (by vm_compute)
  end.
  split; [exact Hit|].
  destruct (local_best_only_decreases _ _ _ _ _ _ _ Hit) as (_ & _ & Hlt & _ & _ & Hb & _).
  split; [exact Hb|exact Hlt].
Defined.

(** X18. A generator whose local best is zero or less never publishes:
    whatever the ordering, the pass is abandoned or rejected and the
    shared block stays as it is. That is the state of a generator started
    with a single argument, whose local best starts at 0. *)
Theorem no_publication_at_best_zero rets vs st sh :
  wf_graph (Generator.g st) → vertices_of (Generator.g st) vs →
  Generator.best_fb_size_l st <= 0 →
  ∃ st' a, Generator.iteration rets vs st sh = Ok (st', sh, a) ∧
           (a = Generator.Pruned ∨ a = Generator.Rejected) ∧
           Generator.best_fb_size_l st' = Generator.best_fb_size_l st.
Proof.
  intros Hwf Hvs Hb. unfold Generator.iteration.
  destruct (scan_spec (Generator.g st) vs (Generator.best_fb_size_l st))
    as (g' & sr & -> & _ & _ & Hsr); [done..|].
  cbn [mbind res_mbind res_bind]. destruct sr as [|es k]; cbn.
  - eexists _, _. split; [done|]. split; [by left|done].
  - destruct Hsr as [_ ->].
    destruct (Z.ltb_spec (Z.of_nat (length (back_edges (Generator.g st) vs)))
                (Generator.best_fb_size_l st)); [lia|].
    cbn. eexists _, _. split; [done|]. split; [by right|done].
Qed.

Lemma no_publication_at_best_zero_witness :
  ∃ st, Generator.setup [(0, 1)] = Ok st ∧ Generator.best_fb_size_l st = 0 ∧
        ∃ st' a, Generator.iteration all_ok [1; 0] st (shared_with_best INT16_MAX)
                 = Ok (st', shared_with_best INT16_MAX, a) ∧
                 (a = Generator.Pruned ∨ a = Generator.Rejected).
Proof.
  assert (∃ st, Generator.setup [(0, 1)] = Ok st) as [st Hst] by (by eexists; vm_compute).
  exists st. split; [done|].
  destruct (setup_wf [(0, 1)] st) as [Hwf Hvs]; [vm_compute; discriminate|done|].
  vm_compute in Hst. injection Hst as <-. split; [reflexivity|].
  destruct (no_publication_at_best_zero all_ok [1; 0] _ (shared_with_best INT16_MAX) Hwf)
    as (st' & a & Hit & Ha & _).
  - by vm_compute; repeat constructor.
  - by vm_compute.
  - by exists st', a.
Defined.

Lemma setup_edges (args : list (Z * Z)) st :
  2 * (Z.of_nat (length args) + 1) <= INT_MAX →
  Generator.setup args = Ok st →
  ∀ u v, is_edge (Generator.g st) u v = bool_decide ((u, v) ∈ args).
Proof.
  intros Hargc Hst.
  assert (args ≠ []) as Hne.
  { intros ->. unfold Generator.setup in Hst. by rewrite bool_decide_eq_true_2 in Hst. }
  destruct (decide (Forall (λ x, 0 <= x < Z.of_nat (length (remove_dups (labels args))))
                      (labels args))) as [Hr|Hr].
  - destruct (setup_ok args) as (st' & Hst' & _ & _ & _ & Hed & _); [done..|].
    rewrite Hst' in Hst. by injection Hst as <-.
  - apply not_Forall_Exists, Exists_exists in Hr as (x & Hx & Hbad); [|apply _].
    rewrite (setup_fail args x) in Hst by done. discriminate.
Qed.

Lemma pair_edge_NoDup gr vs i j : NoDup (pair_edge gr vs i j).
Proof.
  unfold pair_edge. destruct (vs !! i), (vs !! j); try constructor.
  destruct (is_edge _ _ _); [apply NoDup_singleton|constructor].
Qed.

Lemma back_edges_NoDup gr (vs : list Z) : NoDup vs → NoDup (back_edges gr vs).
Proof.
  intros Hnd. unfold back_edges, rows_edges. apply NoDup_bind; [| |apply NoDup_seq].
  - intros i1 i2 e _ _.
    intros (j1 & (a1 & b1 & Ha1 & _ & _ & ->)%elem_of_pair_edge & _)%list_elem_of_bind.
    intros (j2 & (a2 & b2 & Ha2 & _ & _ & [= <- _])%elem_of_pair_edge & _)%list_elem_of_bind.
    by eapply NoDup_lookup.
  - intros i _. unfold row_edges. apply NoDup_bind; [| |apply NoDup_seq].
    + intros j1 j2 e _ _.
      intros (a1 & b1 & _ & Hb1 & _ & ->)%elem_of_pair_edge.
      intros (a2 & b2 & _ & Hb2 & _ & [= _ <-])%elem_of_pair_edge.
      by eapply NoDup_lookup.
    + intros j _. apply pair_edge_NoDup.
Qed.

Lemma edge_pair_inj : Inj (=) (=) (λ e : Edge, (src e, trgt e)).
Proof. intros [a b] [c e] [= -> ->]. done. Qed.

(** X19. The array [edge_set] is never overrun. For a generator set up
    from its arguments and an ordering without duplicates, the scan
    returns, and when it runs to its end the edges it collected are
    pairwise different, each is one of the argument edges, and their
    number is at most the number of arguments, the size of [edge_set]. *)
Theorem edge_set_not_overrun (args : list (Z * Z)) st vs b :
  2 * (Z.of_nat (length args) + 1) <= INT_MAX →
  Generator.setup args = Ok st →
  NoDup vs → vertices_of (Generator.g st) vs →
  ∃ g' sr, Generator.scan (Generator.g st) vs b = Ok (g', sr) ∧
    ∀ es k, sr = Generator.ScanDone es k →
      NoDup es ∧ (∀ e, e ∈ es → (src e, trgt e) ∈ args) ∧
      k = Z.of_nat (length es) ∧ k <= Z.of_nat (length args).
Proof.
  intros Hargc Hst Hnd Hvs.
  destruct (setup_wf args st Hargc Hst) as [Hwf _].
  pose proof (setup_edges args st Hargc Hst) as Hed.
  destruct (scan_spec (Generator.g st) vs b) as (g' & sr & Hs & _ & _ & Hsr); [done..|].
  exists g', sr. split; [done|]. intros es k ->. destruct Hsr as [-> ->].
  assert (∀ e, e ∈ back_edges (Generator.g st) vs → (src e, trgt e) ∈ args) as Hin.
  { intros [u v] [He _]%elem_of_back_edges. rewrite Hed in He.
    by apply bool_decide_eq_true in He. }
  split_and!; [by apply back_edges_NoDup|done|done|].
  rewrite <- (length_fmap (λ e : Edge, (src e, trgt e))).
  apply inj_le, submseteq_length, NoDup_submseteq.
  - apply (@NoDup_fmap_2 _ _ _ edge_pair_inj). by apply back_edges_NoDup.
  - intros p (e & -> & He)%list_elem_of_fmap. by apply Hin.
Qed.

Lemma edge_set_not_overrun_witness :
  ∃ g', Generator.scan (Generator.g cycle3) [0; 2; 1] 3
        = Ok (g', Generator.ScanDone [mk_Edge 2 0; mk_Edge 1 2] 2) ∧ 2 <= 3.
Proof.
  destruct (edge_set_not_overrun cycle3_args cycle3 [0; 2; 1] 3)
    as (g' & sr & Hs & Hdone).
  - vm_compute. discriminate.
  - reflexivity.
  - repeat constructor; set_solver.
  - by vm_compute; repeat constructor.
  - vm_compute in Hs. injection Hs as <- <-. eexists. split; [reflexivity|].
    by destruct (Hdone _ _ eq_refl) as (_ & _ & _ & Hle).
Defined.








Lemma wrap_int_small n : 0 <= n <= INT_MAX → wrap_int n = n.
Proof. unfold INT_MAX, wrap_int. intros Hn. rewrite Z.mod_small by lia. lia. Qed.

Lemma digit_char n : 0 <= n → is_digit (48 + n `mod` 10) = true ∧
                              48 + n `mod` 10 ≠ 45 ∧ 48 + n `mod` 10 ≠ 0.
Proof.
  intros Hn. pose proof (Z.mod_pos_bound n 10 ltac:(lia)). unfold is_digit.
  split; [|lia]. apply andb_true_iff. split; lia.
Qed.

Lemma digits_value_digit stop a n rest :
  (stop = 45 ∨ stop = 0) → 0 <= n →
  digits_value stop a ((48 + n `mod` 10) :: rest)
  = digits_value stop (wrap_int (10 * a + n `mod` 10)) rest.
Proof.
  intros Hstop Hn. destruct (digit_char n Hn) as (Hd & H45 & H0). cbn [digits_value].
  rewrite Hd. replace (48 + n `mod` 10 =? stop) with false
    by (symmetry; apply Z.eqb_neq; lia).
  cbn [andb negb]. do 2 f_equal. lia.
Qed.

(** Reading back the digits written by [decimal_digits]. *)
Lemma digits_value_decimal stop fuel n acc rest :
  (stop = 45 ∨ stop = 0) → 0 <= n <= INT_MAX → n < 10 ^ Z.of_nat fuel →
  digits_value stop 0 (decimal_digits fuel n acc ++ rest)
  = digits_value stop n (acc ++ rest).
Proof.
  intros Hstop. revert n acc. induction fuel as [|fuel IH]; intros n acc Hn Hf.
  - cbn in Hf. assert (n = 0) as -> by lia. done.
  - cbn [decimal_digits].
    assert (n = 10 * (n `div` 10) + n `mod` 10) as Hdm by (apply Z.div_mod; lia).
    pose proof (Z.mod_pos_bound n 10 ltac:(lia)) as Hm.
    destruct (Z.eqb_spec (n `div` 10) 0) as [Hz|Hnz].
    + cbn [app]. rewrite digits_value_digit by (done || lia).
      rewrite wrap_int_small by lia. f_equal. lia.
    + rewrite IH.
      * cbn [app]. rewrite digits_value_digit by (done || lia).
        rewrite wrap_int_small by lia. f_equal. lia.
      * pose proof (Z.div_pos n 10). lia.
      * rewrite Nat2Z.inj_succ, Z.pow_succ_r in Hf by lia.
        apply Z.div_lt_upper_bound; lia.
Qed.

Lemma decimal_digits_are_digits fuel n acc :
  0 <= n → Forall (λ c, is_digit c = true) acc →
  Forall (λ c, is_digit c = true) (decimal_digits fuel n acc).
Proof.
  revert n acc. induction fuel as [|fuel IH]; intros n acc Hn Hacc; [done|].
  cbn [decimal_digits].
  assert (Forall (λ c, is_digit c = true) ((48 + n `mod` 10) :: acc)) as Hacc'.
  { constructor; [by apply digit_char|done]. }
  destruct (n `div` 10 =? 0); [done|]. apply IH; [|done].
  apply Z.div_pos; lia.
Qed.

Lemma decimal_digits_length fuel n acc :
  (length acc ≤ length (decimal_digits fuel n acc))%nat.
Proof.
  revert n acc. induction fuel as [|fuel IH]; intros n acc; [done|].
  cbn [decimal_digits]. destruct (n `div` 10 =? 0); [cbn; lia|].
  etrans; [|apply IH]. cbn. lia.
Qed.

Lemma pow10_gt (k : nat) : Z.of_nat k < 10 ^ Z.of_nat k.
Proof.
  induction k as [|k IH]; [done|].
  rewrite Nat2Z.inj_succ, Z.pow_succ_r by lia. lia.
Qed.

Lemma decimal_spec n :
  0 <= n <= INT_MAX →
  Forall (λ c, is_digit c = true) (decimal n) ∧ decimal n ≠ [] ∧
  ∀ stop rest, (stop = 45 ∨ stop = 0) →
    digits_value stop 0 (decimal n ++ rest) = digits_value stop n rest.
Proof.
  intros Hn. unfold decimal. split_and!.
  - apply decimal_digits_are_digits; [lia|constructor].
  - cbn [decimal_digits]. destruct (n `div` 10 =? 0); [done|].
    intros Hnil. pose proof (decimal_digits_length (Z.to_nat n) (n `div` 10)
                               [48 + n `mod` 10]) as Hl.
    rewrite Hnil in Hl. cbn in Hl. lia.
  - intros stop rest Hstop.
    rewrite (digits_value_decimal stop _ n [] rest) by
      (try done; pose proof (pow10_gt (S (Z.to_nat n))); lia). done.
Qed.

Lemma after_hyphen_digits ds rest :
  Forall (λ c, is_digit c = true) ds → after_hyphen (ds ++ 45 :: rest) = Ok rest.
Proof.
  induction 1 as [|c ds Hc _ IH]; cbn; [done|].
  destruct (Z.eqb_spec c 45) as [->|_]; [done|apply IH].
Qed.

Lemma regexec_edge_search pre a b post :
  is_digit a = true → is_digit b = true →
  regexec_edge (pre ++ [a; 45; b] ++ post) = true.
Proof.
  intros Ha Hb. induction pre as [|x pre IH].
  - cbn. by rewrite Ha, Hb.
  - change ((x :: pre) ++ [a; 45; b] ++ post) with (x :: (pre ++ [a; 45; b] ++ post)).
    cbn [regexec_edge]. rewrite IH.
    destruct (pre ++ [a; 45; b] ++ post) as [|h [|b' tl]] eqn:Heq.
    + by destruct pre.
    + destruct pre as [|? [|]]; discriminate Heq.
    + apply orb_true_r.
Qed.

Lemma edge_text_parses u v :
  0 <= u <= INT_MAX → 0 <= v <= INT_MAX →
  regexec_edge (edge_text u v) = true ∧
  src_from_arg (edge_text u v) = u ∧
  trgt_from_arg (edge_text u v) = Ok v.
Proof.
  intros Hu Hv. destruct (decimal_spec u Hu) as (Hdu & Hnu & Hru).
  destruct (decimal_spec v Hv) as (Hdv & Hnv & Hrv). unfold edge_text. split_and!.
  - destruct (exists_last Hnu) as (pre & a & Hpre).
    destruct (decimal v) as [|b post] eqn:Hdecv; [done|].
    rewrite Hpre, <- app_assoc. apply regexec_edge_search.
    + rewrite Hpre in Hdu. apply Forall_app in Hdu as [_ Hda]. by inversion Hda.
    + by apply Forall_cons in Hdv as [Hb _].
  - unfold src_from_arg. rewrite Hru by (by left). done.
  - unfold trgt_from_arg. cbn [app]. rewrite after_hyphen_digits by done.
    cbn [mbind res_mbind res_bind]. f_equal.
    rewrite <- (app_nil_r (decimal v)). rewrite Hrv by (by right). done.
Qed.

(** X21. Arguments written as decimal vertex ids joined by a hyphen are
    accepted by [assert_edge_format] and read back by [src_from_arg] and
    [trgt_from_arg] as the ids they were written from, for ids between 0
    and [INT_MAX]; so the generator started on such texts is set up as on
    the pairs of ids themselves. *)
Theorem edge_text_round_trip (args : list (Z * Z)) :
  Forall (λ a, 0 <= a.1 <= INT_MAX ∧ 0 <= a.2 <= INT_MAX) args →
  parse_args true ((λ a, edge_text a.1 a.2) <$> args) = Ok args ∧
  generator_start true ((λ a, edge_text a.1 a.2) <$> args) = Generator.setup args.
Proof.
  intros Hargs.
  assert (parse_args true ((λ a, edge_text a.1 a.2) <$> args) = Ok args) as Hparse.
  { induction Hargs as [|[u v] args [Hu Hv] _ IH]; [done|].
    cbn [fmap list_fmap parse_args assert_edge_format fst snd].
    destruct (edge_text_parses u v Hu Hv) as (-> & -> & ->).
    cbn [mbind res_mbind res_bind]. change (list_fmap _ _ ?f ?l) with (f <$> l).
    rewrite IH. done. }
  split; [done|]. unfold generator_start. rewrite Hparse.
  destruct args as [|a args]; [done|]. cbn [fmap list_fmap].
  by rewrite bool_decide_eq_false_2.
Qed.

Lemma edge_text_round_trip_witness :
  edge_text 12 305 = [49; 50; 45; 51; 48; 53] ∧
  parse_args true [[49; 50; 45; 51; 48; 53]; [48; 45; 55]] = Ok [(12, 305); (0, 7)].
Proof.
  split; [reflexivity|].
  apply (proj1 (edge_text_round_trip [(12, 305); (0, 7)]
                  ltac:(repeat constructor; cbn; unfold INT_MAX; lia))).
Defined.

Lemma regexec_edge_has_hyphen arg : regexec_edge arg = true → 45 ∈ arg.
Proof.
  induction arg as [|a rest IH]; [done|]. cbn [regexec_edge].
  destruct rest as [|h [|b tl]]; [done..|].
  intros [Hm|Hr]%orb_true_iff.
  - apply andb_true_iff in Hm as [Hm _]. apply andb_true_iff in Hm as [_ Hh].
    apply Z.eqb_eq in Hh as ->. set_solver.
  - apply IH in Hr. set_solver.
Qed.

Lemma after_hyphen_total arg : 45 ∈ arg → ∃ s, after_hyphen arg = Ok s.
Proof.
  induction arg as [|c rest IH]; [by intros ?%elem_of_nil|].
  intros Hin. cbn. destruct (Z.eqb_spec c 45) as [->|Hne]; [by eauto|].
  apply IH. set_solver.
Qed.

(** X22. [assert_edge_format] is a search, not a match of the whole
    argument: an argument is accepted as soon as a digit, a hyphen and a
    digit occur in a row anywhere in it. For every accepted argument
    [trgt_from_arg] finds a hyphen inside the string; [src_from_arg]
    reads 0 from an argument that does not begin with a digit; a rejected
    argument, or a failing [regcomp], ends the generator. *)
Theorem edge_format_is_a_search :
  (∀ pre a b post, is_digit a = true → is_digit b = true →
     assert_edge_format true (pre ++ [a; 45; b] ++ post) = Ok true) ∧
  (∀ arg, assert_edge_format true arg = Ok true → ∃ t, trgt_from_arg arg = Ok t) ∧
  (∀ c rest, is_digit c = false → src_from_arg (c :: rest) = 0) ∧
  (∀ arg argv, assert_edge_format true arg = Ok false →
     parse_args true (arg :: argv) = ExitFailure) ∧
  (∀ arg argv, parse_args false (arg :: argv) = ExitFailure).
Proof.
  split_and!.
  - intros pre a b post Ha Hb. unfold assert_edge_format. by rewrite regexec_edge_search.
  - intros arg [= Hacc]. apply regexec_edge_has_hyphen, after_hyphen_total in Hacc as [s Hs].
    unfold trgt_from_arg. rewrite Hs. cbn. eauto.
  - intros c rest Hc. unfold src_from_arg. cbn. by rewrite Hc.
  - intros arg argv Hrej. cbn [parse_args]. by rewrite Hrej.
  - done.
Qed.

Lemma edge_format_is_a_search_witness :
  assert_edge_format true [120; 49; 45; 50; 121] = Ok true ∧
  src_from_arg [120; 49; 45; 50; 121] = 0 ∧
  trgt_from_arg [120; 49; 45; 50; 121] = Ok 2.
Proof.
  split; [|split; [|reflexivity]].
  - apply (proj1 edge_format_is_a_search [120] 49 50 [121]); reflexivity.
  - apply (proj1 (proj2 (proj2 edge_format_is_a_search)) 120). reflexivity.
Defined.
